(** * RobOptim Ipopt plug-in: the TNLP adapters

    A shallow embedding of the two adapters that present a RobOptim problem
    to Ipopt through the TNLP callback interface:

    - [Dense]  : [struct Tnlp] of [src/ipopt.cc];
    - [Sparse] : [Tnlp<IpoptSolverSparse>] of [src/tnlp.cc].

    [Number] is Ipopt's [double], embedded as a primitive binary64 float, so
    that the arithmetic on bounds (infinities included) is the machine's.
    [Index] is Ipopt's [int].  A callback is a function from the adapter's
    state and the engine's arguments to a [run]: either it returns, or an
    [assert] of the source fails, or it reads or writes outside a buffer. *)

From Stdlib Require Import ZArith List Bool Lia String.
From Stdlib Require Import Floats.PrimFloat.
From stdpp Require Import base option list sorting.

Local Open Scope Z_scope.

(** ** Scalars, vectors and the callback monad *)

Abbreviation Number := float (only parsing).
Abbreviation Index := Z (only parsing).

Abbreviation vector_t := (list Number) (only parsing).
(** A dense matrix, row by row. *)
Abbreviation matrix_t := (list (list Number)) (only parsing).
(** [std::pair<value_type, value_type>]: [first] is the lower bound. *)
Abbreviation interval_t := (Number * Number)%type (only parsing).

(** [it->which ()] of a constraint. *)
Inductive which_t := LINEAR | NONLINEAR.

Inductive run (A : Type) : Type :=
| Done (a : A)
| AssertionFailed
| OutOfBounds.
Arguments Done {A} a.
Arguments AssertionFailed {A}.
Arguments OutOfBounds {A}.

#[global] Instance run_ret : MRet run := fun A a => Done a.
#[global] Instance run_bind : MBind run := fun A B k r =>
  match r with
  | Done a => k a
  | AssertionFailed => AssertionFailed
  | OutOfBounds => OutOfBounds
  end.

(** [assert (b)]. *)
Definition assert (b : bool) : run unit :=
  if b then Done tt else AssertionFailed.

(** [v[i]] on a [std::vector] or an Eigen vector: no read past the end. *)
Definition at_index {A} (v : list A) (i : nat) : run A :=
  match v !! i with
  | Some a => Done a
  | None => OutOfBounds
  end.

(** [p[i] = a] on a buffer of the engine. *)
Definition store {A} (p : list A) (i : nat) (a : A) : run (list A) :=
  if decide (i < length p)%nat then Done (<[i := a]> p) else OutOfBounds.

(** Copying a whole vector to the front of a buffer ([std::copy], or the
    assignment to an [Eigen::Map] of the buffer). *)
Definition copy_into {A} (src dst : list A) : list A :=
  src ++ drop (length src) dst.

(** [unsigned] arithmetic and the conversion to [Index]. *)
Definition unsigned_wrap (z : Z) : Z := z mod 2 ^ 32.
Definition to_Index (z : Z) : Index :=
  let w := z mod 2 ^ 32 in if w <? 2 ^ 31 then w else w - 2 ^ 32.

(** [a - b == 0] where [a] is a [size_type] or an [unsigned] and [b] an
    [Index]: the difference is taken in the unsigned type of [bits] bits. *)
Definition diff_is_zero (bits : Z) (a b : Z) : bool := (a - b) mod 2 ^ bits =? 0.

(** Modelled from the spec: [Function::infinity ()] is declared in
    roboptim-core, outside these sources; bounds use the [+infinity] sentinel
    for an unbounded side, and [-infinity] for the lower one. *)
Definition infinity : Number := PrimFloat.infinity.

(** Evaluations of the problem's functions, in the order they happen. *)
Inductive event :=
| EvalFunction (x : vector_t)
| EvalGradient (x : vector_t)
| EvalConstraint (id : nat) (x : vector_t)
| EvalJacobian (id : nat) (x : vector_t).

Definition is_EvalJacobian (e : event) : bool :=
  match e with EvalJacobian _ _ => true | _ => false end.

(** The problem, as the adapters read it ([solver_.problem ()]). *)
Record problem_t (F : Type) := {
  function : F;
  constraints : list (which_t * F);
  argumentBounds : list interval_t;
  boundsVector : list (list interval_t);
  argumentScales : list Number;
  scalesVector : list (list Number);
  startingPoint : option vector_t
}.
Arguments function {F} _.
Arguments constraints {F} _.
Arguments argumentBounds {F} _.
Arguments boundsVector {F} _.
Arguments argumentScales {F} _.
Arguments scalesVector {F} _.
Arguments startingPoint {F} _.

(** ** The solver's result *)

Record Result := {
  res_x : vector_t;
  res_value : vector_t;
  res_constraints : vector_t;
  res_lambda : vector_t
}.

Record ResultWithWarnings := {
  rw_result : Result;
  warnings : list string
}.

(** [solver_.result_], a variant; [which ()] is the constructor's rank. *)
Inductive result_t :=
| NoSolution
| Value (r : Result)
| ValueWarnings (r : ResultWithWarnings)
| SolverError (what : string).





(** ** The dense adapter ([src/ipopt.cc]) *)

Module Dense.

Record DifferentiableFunction := {
  inputSize : nat;
  outputSize : nat;
  (** [operator ()] *)
  call : vector_t -> vector_t;
  (** [gradient (x, functionId)] *)
  gradient : vector_t -> nat -> vector_t;
  (** [jacobian (x)], one row per output. *)
  jacobian : vector_t -> matrix_t
}.

Definition problem := problem_t DifferentiableFunction.

Record Tnlp := {
  cost_ : vector_t;
  costGradient_ : vector_t;
  constraints_ : matrix_t;
  jacobian_ : matrix_t;
  (** [solver_.result_] *)
  result_ : result_t;
  (** what has been evaluated so far *)
  evals : list event
}.

Definition set_result (r : result_t) (t : Tnlp) : Tnlp :=
  {| cost_ := cost_ t; costGradient_ := costGradient_ t;
     constraints_ := constraints_ t; jacobian_ := jacobian_ t;
     result_ := r; evals := evals t |}.

Definition constraintsOutputSize (pb : problem) : Z :=
  fold_left (fun result c => unsigned_wrap (result + Z.of_nat (outputSize (snd c))))
            (constraints pb) 0.

Inductive IndexStyleEnum := C_STYLE | FORTRAN_STYLE.

Record nlp_info := {
  info_n : Index;
  info_m : Index;
  info_nnz_jac_g : Index;
  info_nnz_h_lag : Index;
  info_index_style : IndexStyleEnum
}.

(** [n * m] and [n * (n + 1) / 2] are computed in [Index]: a sum or a
    product out of its range wraps as the conversions do, and the division
    truncates. *)
Definition get_nlp_info (pb : problem) : bool * nlp_info :=
  let n := to_Index (Z.of_nat (inputSize (function pb))) in
  let m := to_Index (constraintsOutputSize pb) in
  (true, {| info_n := n; info_m := m;
            info_nnz_jac_g := to_Index (n * m);
            info_nnz_h_lag := Z.quot (to_Index (n * to_Index (n + 1))) 2;
            info_index_style := C_STYLE |}).

(** [*(x_l++) = it->first, *(x_u++) = it->second] over a list of intervals. *)
Fixpoint emit_bounds (its : list interval_t) (k : nat) (lo up : list Number)
  : run (list Number * list Number) :=
  match its with
  | [] => Done (lo, up)
  | it :: its' =>
      lo' ← store lo k (fst it);
      up' ← store up k (snd it);
      emit_bounds its' (S k) lo' up'
  end.

Definition get_bounds_info (pb : problem) (n : Index) (x_l x_u : list Number)
    (m : Index) (g_l g_u : list Number)
  : run (bool * (list Number * list Number) * (list Number * list Number)) :=
  _ ← assert (diff_is_zero 64 (Z.of_nat (inputSize (function pb))) n);
  _ ← assert (diff_is_zero 32 (constraintsOutputSize pb) m);
  xb ← emit_bounds (argumentBounds pb) 0 x_l x_u;
  gb ← emit_bounds (concat (boundsVector pb)) 0 g_l g_u;
  Done (true, xb, gb).

(** The inner loop of the scaling query:
    [for (j = 0; j < row.size (); ++j) g_scaling[i] = row[j]]. *)
Fixpoint scaling_row (row : list Number) (i : nat) (g_scaling : list Number)
  : run (list Number) :=
  match row with
  | [] => Done g_scaling
  | s :: row' => g' ← store g_scaling i s; scaling_row row' i g'
  end.

(** [for (i = 0; i < m; ++i)], counting [todo] iterations from [i]. *)
Fixpoint scaling_loop (sv : list (list Number)) (todo : nat) (i : nat)
    (g_scaling : list Number) : run (list Number) :=
  match todo with
  | O => Done g_scaling
  | S todo' =>
      row ← at_index sv i;
      g' ← scaling_row row i g_scaling;
      scaling_loop sv todo' (S i) g'
  end.

Record scaling := {
  use_x_scaling : bool;
  x_scaling : list Number;
  use_g_scaling : bool;
  g_scaling : list Number
}.

Definition get_scaling_parameters (pb : problem) (n : Index) (x_sc : list Number)
    (m : Index) (g_sc : list Number) : run (bool * scaling) :=
  _ ← assert (Z.of_nat (length (argumentScales pb)) =? n);
  let x' := copy_into (argumentScales pb) x_sc in
  g' ← scaling_loop (scalesVector pb) (Z.to_nat m) 0 g_sc;
  Done (true, {| use_x_scaling := true; x_scaling := x';
                 use_g_scaling := true; g_scaling := g' |}).

Inductive LinearityType := TNLP_LINEAR | TNLP_NON_LINEAR.

Definition get_variables_linearity (pb : problem) (n : Index) : run (bool * list LinearityType) :=
  _ ← assert (diff_is_zero 64 (Z.of_nat (inputSize (function pb))) n);
  Done (true, replicate (Z.to_nat n) TNLP_NON_LINEAR).

Definition get_function_linearity (pb : problem) (m : Index) : run (bool * list LinearityType) :=
  _ ← assert (diff_is_zero 32 (constraintsOutputSize pb) m);
  Done (true,
        flat_map (fun c =>
                    replicate (outputSize (snd c))
                      (match fst c with LINEAR => TNLP_LINEAR | NONLINEAR => TNLP_NON_LINEAR end))
                 (constraints pb)).

Record starting_point := {
  sp_x : list Number;
  sp_z_L : list Number;
  sp_z_U : list Number
}.

(** [for (i = 0; i < n; ++i) z_L[i] = 1., z_U[i] = 1.]. *)
Definition ones (n : Index) (z_L z_U : list Number) : run (list Number * list Number) :=
  if decide (Z.to_nat n <= length z_L /\ Z.to_nat n <= length z_U)%nat
  then Done (copy_into (replicate (Z.to_nat n) 1%float) z_L,
             copy_into (replicate (Z.to_nat n) 1%float) z_U)
  else OutOfBounds.

(** The point goes to the engine through an [Eigen::Map] of its buffer, as
    every vector and matrix the numeric callbacks hand back: what the engine
    receives is the vector assigned to the map. *)
Definition get_starting_point (pb : problem) (t : Tnlp) (n : Index) (init_x : bool)
    (x : list Number) (init_z : bool) (z_L z_U : list Number) (m : Index)
    (init_lambda : bool) : run (bool * starting_point * Tnlp) :=
  _ ← assert (diff_is_zero 64 (Z.of_nat (inputSize (function pb))) n);
  _ ← assert (diff_is_zero 32 (constraintsOutputSize pb) m);
  _ ← assert (eqb init_lambda false);
  z ← (if init_z then ones n z_L z_U else Done (z_L, z_U));
  match startingPoint pb with
  | None =>
      if init_x
      then Done (false, {| sp_x := x; sp_z_L := fst z; sp_z_U := snd z |},
                 set_result (SolverError "Ipopt method needs a starting point.") t)
      else Done (true, {| sp_x := x; sp_z_L := fst z; sp_z_U := snd z |}, t)
  | Some start =>
      Done (true, {| sp_x := start; sp_z_L := fst z; sp_z_U := snd z |}, t)
  end.

Definition get_warm_start_iterate : bool := false.

(** [Eigen::Map<const vector_t> x_ (x, n)]. *)
Definition map_vector (x : list Number) (n : Index) : vector_t := take (Z.to_nat n) x.



(** The storage order of [Function::matrix_t], fixed by roboptim-core. *)
Inductive StorageOrder_t := ColMajor | RowMajor.

(** A vector seen as a one-column matrix. *)
Definition as_column (v : vector_t) : matrix_t := map (fun a => [a]) v.

(** The number of columns of a matrix given row by row; a matrix without
    rows (the Jacobian of a constraint without outputs) has the [n] columns
    of the block it goes to. *)
Definition width (n : nat) (src : matrix_t) : nat :=
  match src with
  | [] => n
  | row :: _ => length row
  end.

(** [M.block (idx, 0, s, n) = src], for a source of [c] columns.  Eigen
    checks that the block lies inside [M] and that it has the sizes of the
    source: an assignment that fails these checks would read or write
    outside one of the two matrices, and is counted as such
    ([AssertionFailed] is for the [assert]s of the adapter).  Otherwise the
    first [n] coefficients of the rows [idx] to [idx + s - 1] become the rows
    of the source. *)
Definition set_block (M : matrix_t) (idx s n c : nat) (src : matrix_t) : run matrix_t :=
  if decide ((idx + s <= length M)%nat /\ Forall (fun row => (n <= length row)%nat) M /\
             length src = s /\ c = n /\ Forall (fun row => length row = c) src)
  then Done (take idx M
             ++ zip_with (fun new old => new ++ drop n old) src (take s (drop idx M))
             ++ drop (idx + s) M)
  else OutOfBounds.

(** The loop over the constraints of [eval_g] and [eval_jac_g]:
    [value c] goes to the block at [idx], then [idx += g->outputSize ()]. *)
Fixpoint fill_blocks (value : DifferentiableFunction -> matrix_t) (cols : matrix_t -> nat)
    (mk : nat -> event) (cs : list (which_t * DifferentiableFunction)) (n : nat)
    (id idx : nat) (M : matrix_t) (ev : list event) : run (matrix_t * list event) :=
  match cs with
  | [] => Done (M, ev)
  | c :: cs' =>
      let src := value (snd c) in
      M' ← set_block M idx (outputSize (snd c)) n (cols src) src;
      fill_blocks value cols mk cs' n (S id) (idx + outputSize (snd c)) M' (ev ++ [mk id])
  end.

(** The coefficients of a matrix of [n] columns in the order of its storage:
    row after row, or column after column. *)
Definition coefficients (so : StorageOrder_t) (n : nat) (M : matrix_t) : list Number :=
  match so with
  | RowMajor => concat M
  | ColMajor => flat_map (fun j => map (fun row : list float => nth j row 0%float) M) (seq 0 n)
  end.

(** [Eigen::Map<matrix_t> p_ (p, m, n); p_ = M]: the map has the sizes the
    engine gives, which Eigen checks to be sizes and to be those of [M] (a
    buffer is built with [inputSize ()] columns, so that one without rows has
    [n] columns once the first assertion has passed); the [m * n]
    coefficients then go to the engine's buffer in storage order. *)
Definition assign_map (so : StorageOrder_t) (p : list Number) (m n : Index) (M : matrix_t)
  : run (list Number) :=
  if decide (0 <= m /\ 0 <= n /\ length M = Z.to_nat m /\
             Forall (fun row => length row = Z.to_nat n) M /\
             (length (coefficients so (Z.to_nat n) M) <= length p)%nat)
  then Done (copy_into (coefficients so (Z.to_nat n) M) p)
  else OutOfBounds.

(** The engine's buffer [p'] after a matrix [M] of [m] rows and [n] columns
    has gone to the front of [p]: coefficient [(i, j)] sits at [i * n + j] in
    a row-major build and at [j * m + i] in a column-major one, and the
    entries from [m * n] on are those of [p]. *)
Definition holds (so : StorageOrder_t) (m n : nat) (M : matrix_t) (p p' : list Number)
  : Prop :=
  length p' = length p /\
  (forall i j row a, M !! i = Some row -> row !! j = Some a ->
     p' !! (match so with RowMajor => i * n + j | ColMajor => j * m + i end)%nat = Some a) /\
  (forall k, (m * n <= k)%nat -> p' !! k = p !! k).

Definition eval_g (so : StorageOrder_t) (pb : problem) (t : Tnlp) (n : Index)
    (x : list Number) (new_x : bool) (m : Index) (g : list Number)
  : run (bool * list Number * Tnlp) :=
  _ ← assert (diff_is_zero 64 (Z.of_nat (inputSize (function pb))) n);
  _ ← assert (diff_is_zero 64 (Z.of_nat (length (constraints pb))) m);
  t' ← (if new_x
        then let x_ := map_vector x n in
             r ← fill_blocks (fun f => as_column (call f x_)) (fun _ => 1%nat)
                             (fun id => EvalConstraint id x_)
                             (constraints pb) (Z.to_nat n) 0 0 (constraints_ t) (evals t);
             Done {| cost_ := cost_ t; costGradient_ := costGradient_ t;
                     constraints_ := fst r; jacobian_ := jacobian_ t;
                     result_ := result_ t; evals := snd r |}
        else Done t);
  g' ← assign_map so g m n (constraints_ t');
  Done (true, g', t').

(** What [eval_jac_g] hands back: the structure when [values] is null, the
    values otherwise. *)
Inductive jac_output :=
| Structure (iRow jCol : list Index)
| Values (values : list Number).

(** [for (i < m) for (j < n) iRow[idx] = i, jCol[idx] = j, ++idx]. *)
Definition dense_structure (m n : Index) : list (Index * Index) :=
  flat_map (fun i => map (fun j => (Z.of_nat i, Z.of_nat j)) (seq 0 (Z.to_nat n)))
           (seq 0 (Z.to_nat m)).

(** [eval_jac_g]; [values] is [None] for the null pointer. *)
Definition eval_jac_g (so : StorageOrder_t) (pb : problem) (t : Tnlp) (n : Index)
    (x : list Number) (new_x : bool) (m : Index) (iRow jCol : list Index)
    (values : option (list Number)) : run (bool * jac_output * Tnlp) :=
  _ ← assert (diff_is_zero 64 (Z.of_nat (inputSize (function pb))) n);
  _ ← assert (diff_is_zero 64 (Z.of_nat (length (constraints pb))) m);
  match values with
  | None =>
      let s := dense_structure m n in
      if decide (length s <= length iRow /\ length s <= length jCol)%nat
      then Done (true, Structure (copy_into (map fst s) iRow) (copy_into (map snd s) jCol), t)
      else OutOfBounds
  | Some values =>
      t' ← (if new_x
            then let x_ := map_vector x n in
                 r ← fill_blocks (fun f => jacobian f x_) (width (Z.to_nat n))
                                 (fun id => EvalJacobian id x_)
                                 (constraints pb) (Z.to_nat n) 0 0 (jacobian_ t) (evals t);
                 Done {| cost_ := cost_ t; costGradient_ := costGradient_ t;
                         constraints_ := constraints_ t; jacobian_ := fst r;
                         result_ := result_ t; evals := snd r |}
            else Done t);
      values' ← assign_map so values m n (jacobian_ t');
      Done (true, Values values', t')
  end.



End Dense.

(** ** The sparse adapter ([src/tnlp.cc]) *)

Module Sparse.

(** [StorageOrder], fixed by roboptim-core for every sparse matrix. *)
Inductive StorageOrder_t := ColMajor | RowMajor.

(** An entry of an inner vector: its inner index and its value. *)
Abbreviation entry := (nat * Number)%type (only parsing).

(** [Eigen::SparseMatrix<double, StorageOrder>], compressed: the outer
    vectors (the columns of a column-major matrix), each one the stored
    entries in storage order. *)
Record jacobian_t := {
  rows : nat;
  cols : nat;
  outer : list (list entry)
}.

Definition outerSize (M : jacobian_t) : nat := length (outer M).
Definition nonZeros (M : jacobian_t) : nat := length (concat (outer M)).

(** The entries [InnerIterator it (M, k)] visits, for [k < M.outerSize ()]. *)
Definition inner_vector (M : jacobian_t) (k : nat) : list entry :=
  default [] (outer M !! k).

(** [it.row ()] and [it.col ()]. *)
Definition it_row (so : StorageOrder_t) (k : nat) (e : entry) : nat :=
  match so with ColMajor => fst e | RowMajor => k end.
Definition it_col (so : StorageOrder_t) (k : nat) (e : entry) : nat :=
  match so with ColMajor => k | RowMajor => fst e end.

(** The positions a matrix stores, without the values. *)
Definition layout (M : jacobian_t) : nat * nat * list (list nat) :=
  (rows M, cols M, map (map fst) (outer M)).

(** [jac *= 0.]: every stored value is multiplied, no position is dropped. *)
Definition scale (M : jacobian_t) (a : Number) : jacobian_t :=
  {| rows := rows M; cols := cols M;
     outer := map (map (fun e : entry => (fst e, (snd e * a)%float))) (outer M) |}.

(** [Eigen::Triplet<double> (row, col, value)]. *)
Record triplet_t := {
  t_row : nat;
  t_col : nat;
  t_value : Number
}.

Definition t_outer (so : StorageOrder_t) (t : triplet_t) : nat :=
  match so with ColMajor => t_col t | RowMajor => t_row t end.
Definition t_inner (so : StorageOrder_t) (t : triplet_t) : nat :=
  match so with ColMajor => t_row t | RowMajor => t_col t end.

(** One triplet joins an inner vector kept in increasing inner index; a
    triplet of a coordinate already there is added to it. *)
Fixpoint insert_entry (i : nat) (v : Number) (l : list entry) : list entry :=
  match l with
  | [] => [(i, v)]
  | e :: l' =>
      if (i <? fst e)%nat then (i, v) :: l
      else if (i =? fst e)%nat then (fst e, (snd e + v)%float) :: l'
      else e :: insert_entry i v l'
  end.

Definition assemble (l : list entry) : list entry :=
  fold_left (fun acc e => insert_entry (fst e) (snd e) acc) l [].

(** [M.setFromTriplets (begin, end)] on a matrix of [r] rows and [c] columns:
    outer vector [k] is made of the triplets of outer index [k], in increasing
    inner index, duplicates summed. *)
Definition setFromTriplets (so : StorageOrder_t) (r c : nat) (ts : list triplet_t)
  : jacobian_t :=
  {| rows := r; cols := c;
     outer :=
       map (fun k =>
              assemble (map (fun t => (t_inner so t, t_value t))
                            (filter (fun t => t_outer so t = k) ts)))
           (seq 0 (match so with ColMajor => c | RowMajor => r end)) |}.

Record DifferentiableSparseFunction := {
  inputSize : nat;
  outputSize : nat;
  (** [jacobian (x)], by value *)
  jacobian : vector_t -> jacobian_t;
  (** [jacobian (jac, x)], into the matrix the caller gives *)
  jacobian_into : jacobian_t -> vector_t -> jacobian_t
}.

Definition problem := problem_t DifferentiableSparseFunction.

Record Tnlp := {
  (** [boost::optional<jacobian_t> jacobian_] *)
  jacobian_ : option jacobian_t;
  constraintJacobians_ : list jacobian_t;
  (** what has been evaluated so far *)
  evals : list event
}.

(** Modelled from the spec: [constraintsOutputSize ()] is defined in tnlp.hh,
    outside these sources; m is the sum of the constraints' output sizes. *)
Definition constraintsOutputSize (pb : problem) : nat :=
  foldr (fun c acc => outputSize (snd c) + acc)%nat 0%nat (constraints pb).

Record nlp_info := {
  info_n : Index;
  info_m : Index;
  info_nnz_jac_g : Index;
  info_nnz_h_lag : Index
}.

(** The loop of [get_nlp_info]: [nnz_jac_g += g->jacobian (x).nonZeros ()]. *)
Fixpoint count_nonZeros (cs : list (which_t * DifferentiableSparseFunction))
    (x : vector_t) (id : nat) (nnz : Index) (ev : list event) : Index * list event :=
  match cs with
  | [] => (nnz, ev)
  | c :: cs' =>
      count_nonZeros cs' x (S id) (nnz + Z.of_nat (nonZeros (jacobian (snd c) x)))
                     (ev ++ [EvalJacobian id x])
  end.

Definition get_nlp_info (pb : problem) (t : Tnlp) : bool * nlp_info * Tnlp :=
  let n := to_Index (Z.of_nat (inputSize (function pb))) in
  let m := to_Index (Z.of_nat (constraintsOutputSize pb)) in
  let x := match startingPoint pb with
           | Some start => start
           | None => replicate (Z.to_nat n) 0%float
           end in
  let '(nnz, ev) := count_nonZeros (constraints pb) x 0 0 (evals t) in
  (true,
   {| info_n := n; info_m := m; info_nnz_jac_g := nnz; info_nnz_h_lag := 0 |},
   {| jacobian_ := jacobian_ t; constraintJacobians_ := constraintJacobians_ t;
      evals := ev |}).

(** The component the structural query picks from one interval when the
    problem has no starting point. *)
Definition pick (b : interval_t) : Number :=
  if negb (fst b =? infinity)%float && negb (snd b =? infinity)%float
  then ((snd b - fst b) / 2)%float
  else if negb (fst b =? infinity)%float then fst b
  else snd b.

(** [for (i = 0; i < x.size (); ++i)] over
    [boundsVector ()[constraintId][i]], [todo] components from [i]. *)
Fixpoint from_bounds (bv : list (list interval_t)) (constraintId : nat)
    (todo i : nat) : run vector_t :=
  match todo with
  | O => Done []
  | S todo' =>
      its ← at_index bv constraintId;
      b ← at_index its i;
      x ← from_bounds bv constraintId todo' (S i);
      Done (pick b :: x)
  end.

(** The point at which the structural query evaluates a constraint. *)
Definition evaluation_point (pb : problem) (constraintId : nat) (n : Index)
  : run vector_t :=
  match startingPoint pb with
  | None => from_bounds (boundsVector pb) constraintId (Z.to_nat n) 0
  | Some start => Done start
  end.

(** The triplets of one constraint's Jacobian, rows shifted by [idx]. *)
Definition triplets_of (so : StorageOrder_t) (idx : nat) (M : jacobian_t)
  : list triplet_t :=
  flat_map (fun k =>
              map (fun e => {| t_row := idx + it_row so k e;
                               t_col := it_col so k e;
                               t_value := snd e |})
                  (inner_vector M k))
           (seq 0 (outerSize M)).

(** The loop over the constraints of the structural query. *)
Fixpoint collect (pb : problem) (so : StorageOrder_t) (n : Index)
    (cs : list (which_t * DifferentiableSparseFunction)) (constraintId idx : nat)
    (Js : list jacobian_t) (coefficients : list triplet_t) (ev : list event)
  : run (list jacobian_t * list triplet_t * list event) :=
  match cs with
  | [] => Done (Js, coefficients, ev)
  | c :: cs' =>
      x ← evaluation_point pb constraintId n;
      let tmp_jac := jacobian (snd c) x in
      collect pb so n cs' (S constraintId) (idx + outputSize (snd c))
              (Js ++ [tmp_jac]) (coefficients ++ triplets_of so idx tmp_jac)
              (ev ++ [EvalJacobian constraintId x])
  end.

(** The coordinates in the order the structural query writes them. *)
Definition emitted (so : StorageOrder_t) (G : jacobian_t) : list (Index * Index) :=
  flat_map (fun k =>
              map (fun e => (Z.of_nat (it_row so k e), Z.of_nat (it_col so k e)))
                  (inner_vector G k))
           (seq 0 (outerSize G)).

(** [memset (p, 0, nele_jac * sizeof (Index))]. *)
Definition memset0 (p : list Index) (nele_jac : Index) : run (list Index) :=
  if decide (Z.to_nat nele_jac <= length p)%nat
  then Done (copy_into (replicate (Z.to_nat nele_jac) 0) p)
  else OutOfBounds.

(** [p[idx] = a, ++idx] for every [a] of [l], from [idx = 0]. *)
Definition emit (l : list Index) (p : list Index) : run (list Index) :=
  if decide (length l <= length p)%nat then Done (copy_into l p) else OutOfBounds.

(** The loop of the numeric query that refreshes the stored Jacobians. *)
Fixpoint refill (cs : list (which_t * DifferentiableSparseFunction)) (x_ : vector_t)
    (constraintId : nat) (Js : list jacobian_t) (ev : list event)
  : run (list jacobian_t * list event) :=
  match cs with
  | [] => Done (Js, ev)
  | c :: cs' =>
      jac ← at_index Js constraintId;
      let jac' := jacobian_into (snd c) (scale jac 0%float) x_ in
      refill cs' x_ (S constraintId) (<[constraintId := jac']> Js)
             (ev ++ [EvalJacobian constraintId x_])
  end.

(** [assert (idx < nele_jac); values[idx++] = it.value ()] along one inner
    vector. *)
Fixpoint copy_vector (es : list entry) (nele_jac : Index) (idx : nat)
    (values : list Number) : run (nat * list Number) :=
  match es with
  | [] => Done (idx, values)
  | e :: es' =>
      _ ← assert (Z.of_nat idx <? nele_jac);
      values' ← store values idx (snd e);
      copy_vector es' nele_jac (S idx) values'
  end.

(** Outer vector [k] of every stored Jacobian, one Jacobian after the other. *)
Fixpoint copy_outer (Js : list jacobian_t) (k : nat) (nele_jac : Index) (idx : nat)
    (values : list Number) : run (nat * list Number) :=
  match Js with
  | [] => Done (idx, values)
  | g :: Js' =>
      es ← at_index (outer g) k;
      r ← copy_vector es nele_jac idx values;
      copy_outer Js' k nele_jac (fst r) (snd r)
  end.

(** [for (k = 0; k < inputSize (); ++k)], [todo] columns from [k]. *)
Fixpoint copy_ColMajor (Js : list jacobian_t) (todo k : nat) (nele_jac : Index)
    (idx : nat) (values : list Number) : run (nat * list Number) :=
  match todo with
  | O => Done (idx, values)
  | S todo' =>
      r ← copy_outer Js k nele_jac idx values;
      copy_ColMajor Js todo' (S k) nele_jac (fst r) (snd r)
  end.

(** Every outer vector of a stored Jacobian, then the next Jacobian. *)
Fixpoint copy_RowMajor (Js : list jacobian_t) (nele_jac : Index) (idx : nat)
    (values : list Number) : run (nat * list Number) :=
  match Js with
  | [] => Done (idx, values)
  | g :: Js' =>
      r ← copy_vector (concat (outer g)) nele_jac idx values;
      copy_RowMajor Js' nele_jac (fst r) (snd r)
  end.

Inductive jac_output :=
| Structure (iRow jCol : list Index)
| Values (values : list Number).

(** [eval_jac_g]; [values] is [None] for the null pointer.  The gradient
    check of the numeric branch only logs, and is left out. *)
Definition eval_jac_g (so : StorageOrder_t) (pb : problem) (t : Tnlp) (n : Index)
    (x : list Number) (new_x : bool) (m : Index) (nele_jac : Index)
    (iRow jCol : list Index) (values : option (list Number))
  : run (bool * jac_output * Tnlp) :=
  _ ← assert (Z.of_nat (inputSize (function pb)) =? n);
  _ ← assert (Z.of_nat (constraintsOutputSize pb) =? m);
  let G0 := match jacobian_ t with
            | Some G => G
            | None => {| rows := constraintsOutputSize pb;
                         cols := inputSize (function pb);
                         outer := replicate
                                    (match so with
                                     | ColMajor => inputSize (function pb)
                                     | RowMajor => constraintsOutputSize pb
                                     end) [] |}
            end in
  match values with
  | None =>
      iRow0 ← memset0 iRow nele_jac;
      jCol0 ← memset0 jCol nele_jac;
      r ← collect pb so n (constraints pb) 0 0 (constraintJacobians_ t) [] (evals t);
      let '(Js, coefficients, ev) := r in
      let G := setFromTriplets so (rows G0) (cols G0) coefficients in
      iRow' ← emit (map fst (emitted so G)) iRow0;
      jCol' ← emit (map snd (emitted so G)) jCol0;
      Done (true, Structure iRow' jCol',
            {| jacobian_ := Some G; constraintJacobians_ := Js; evals := ev |})
  | Some values =>
      let x_ := take (Z.to_nat n) x in
      r ← refill (constraints pb) x_ 0 (constraintJacobians_ t) (evals t);
      let '(Js, ev) := r in
      w ← match so with
          | ColMajor => copy_ColMajor Js (inputSize (function pb)) 0 nele_jac 0 values
          | RowMajor => copy_RowMajor Js nele_jac 0 values
          end;
      Done (true, Values (snd w),
            {| jacobian_ := Some G0; constraintJacobians_ := Js; evals := ev |})
  end.

(** The stored entries with their coordinates in the whole Jacobian, in the
    order of the column-major copy: the entry [e] of column [k] of the
    constraint whose rows start at [off] sits at row [off + fst e]. *)
Fixpoint stacked_column (Js : list jacobian_t) (sizes : list nat) (off k : nat)
  : list (nat * nat * Number) :=
  match Js, sizes with
  | g :: Js', s :: sizes' =>
      map (fun e : entry => (off + fst e, k, snd e))%nat (inner_vector g k)
      ++ stacked_column Js' sizes' (off + s) k
  | _, _ => []
  end.

Definition stacked (Js : list jacobian_t) (sizes : list nat) (n : nat)
  : list (nat * nat * Number) :=
  flat_map (stacked_column Js sizes 0) (seq 0 n).

Definition coordinate (c : nat * nat * Number) : Index * Index :=
  (Z.of_nat (fst (fst c)), Z.of_nat (snd (fst c))).

(** A column-major Jacobian of [s] rows and [n] columns as Eigen keeps it:
    one inner vector per column, rows increasing and below [s]. *)
Definition well_formed (s n : nat) (M : jacobian_t) : Prop :=
  rows M = s /\ cols M = n /\ length (outer M) = n /\
  Forall (fun v : list entry =>
            StronglySorted lt (map fst v) /\ Forall (fun e => (fst e < s)%nat) v)
         (outer M).

(** A constraint's evaluation into a matrix keeps the positions [L]: given a
    matrix that stores them, it gives one back that stores them. *)
Definition keeps_layout (g : DifferentiableSparseFunction)
    (L : nat * nat * list (list nat)) : Prop :=
  forall jac x, layout jac = L -> layout (jacobian_into g jac x) = L.

(** The Jacobian the structural query stores for constraint [id]. *)
Definition structural_point (pb : problem) (id : nat) : vector_t :=
  match evaluation_point pb id (Z.of_nat (inputSize (function pb))) with
  | Done x => x
  | _ => []
  end.

Definition structural_jacobian (pb : problem) (id : nat)
    (c : which_t * DifferentiableSparseFunction) : jacobian_t :=
  jacobian (snd c) (structural_point pb id).

(** The problems whose constraints have, at the point of the structural
    query, a Jacobian of the declared size that their evaluation into a
    matrix refills in place. *)
Definition regular (pb : problem) : Prop :=
  forall id c, constraints pb !! id = Some c ->
    well_formed (outputSize (snd c)) (inputSize (function pb)) (structural_jacobian pb id c) /\
    keeps_layout (snd c) (layout (structural_jacobian pb id c)).

Definition sizes (pb : problem) : list nat :=
  map (fun c => outputSize (snd c)) (constraints pb).

(** The stored Jacobians keep the positions of those the structural query
    stores. *)
Definition frozen (pb : problem) (Js : list jacobian_t) : Prop :=
  Forall2 (fun g g0 => layout g = layout g0) Js
          (imap (structural_jacobian pb) (constraints pb)).

(** The adapter after any number of numeric queries that returned. *)
Inductive after_numeric (so : StorageOrder_t) (pb : problem) (t : Tnlp) : Tnlp -> Prop :=
| after_none : after_numeric so pb t t
| after_call t' t'' n x new_x m nele_jac iRow jCol values out :
    after_numeric so pb t t' ->
    eval_jac_g so pb t' n x new_x m nele_jac iRow jCol (Some values) = Done (true, out, t'') ->
    after_numeric so pb t t''.

(** The triplets of a list of Jacobians stacked from row [off]. *)
Fixpoint all_triplets (so : StorageOrder_t) (Js : list jacobian_t) (ss : list nat)
    (off : nat) : list triplet_t :=
  match Js, ss with
  | g :: Js', s :: ss' => triplets_of so off g ++ all_triplets so Js' ss' (off + s)
  | _, _ => []
  end.

(** What a copy into the engine's buffer of values may change: no entry from
    [nele_jac] on, nor the length. *)
Definition same_beyond (nele_jac : Index) (v v' : list Number) : Prop :=
  length v' = length v /\ forall i, nele_jac <= Z.of_nat i -> v' !! i = v !! i.

(** The stored values in the order the numeric query copies them: column
    after column across the stored Jacobians, or Jacobian after Jacobian. *)
Definition stored_values (so : StorageOrder_t) (n : nat) (Js : list jacobian_t)
  : list Number :=
  match so with
  | ColMajor => flat_map (fun k => flat_map (fun g => map snd (inner_vector g k)) Js) (seq 0 n)
  | RowMajor => flat_map (fun g => map snd (concat (outer g))) Js
  end.

(** A copy loop that writes the values [V] from [idx] on when they fit below
    [nele_jac], and stops on its assertion when they do not. *)
Definition copies (f : Index -> nat -> list Number -> run (nat * list Number))
    (V : list Number) : Prop :=
  forall (nele_jac : Index) (idx : nat) (pre rest : list Number),
    idx = length pre ->
    (Z.to_nat nele_jac <= length (pre ++ rest))%nat ->
    (Z.of_nat (idx + length V) <= Z.max 0 nele_jac ->
     f nele_jac idx (pre ++ rest)
     = Done ((idx + length V)%nat, (pre ++ V) ++ drop (length V) rest)) /\
    (Z.of_nat idx <= Z.max 0 nele_jac < Z.of_nat (idx + length V) ->
     f nele_jac idx (pre ++ rest) = AssertionFailed).

(** A row-major Jacobian of [s] rows and [n] columns as Eigen keeps it: one
    inner vector per row, columns increasing and below [n]. *)
Definition well_formed_rows (s n : nat) (M : jacobian_t) : Prop :=
  rows M = s /\ cols M = n /\ length (outer M) = s /\
  Forall (fun v : list entry =>
            StronglySorted lt (map fst v) /\ Forall (fun e => (fst e < n)%nat) v)
         (outer M).

(** [regular], for a row-major build. *)
Definition regular_rows (pb : problem) : Prop :=
  forall id c, constraints pb !! id = Some c ->
    well_formed_rows (outputSize (snd c)) (inputSize (function pb))
                     (structural_jacobian pb id c) /\
    keeps_layout (snd c) (layout (structural_jacobian pb id c)).

(** The stored entries with their coordinates in the whole Jacobian, in the
    order of the row-major copy: the entry [e] of row [k] of the constraint
    whose rows start at [off] sits at row [off + k] and column [fst e]. *)
Fixpoint stacked_rows (Js : list jacobian_t) (sizes : list nat) (off : nat)
  : list (nat * nat * Number) :=
  match Js, sizes with
  | g :: Js', s :: sizes' =>
      concat (imap (fun k v => map (fun e : entry => (off + k, fst e, snd e))%nat v) (outer g))
      ++ stacked_rows Js' sizes' (off + s)
  | _, _ => []
  end.

End Sparse.

(** ** Counting evaluations, and the problems used as examples *)

Definition jacobian_evaluations (ev : list event) : nat :=
  length (filter (fun e => is_EvalJacobian e = true) ev).

(** The output sizes of the constraints, in declaration order. *)
Definition output_sizes (pb : Dense.problem) : list nat :=
  map (fun c => Dense.outputSize (snd c)) (constraints pb).

Module DenseExamples.
Import Dense.

(** A function of [n] variables and [s] outputs that is constant. *)
Definition constant (n s : nat) (a : Number) : DifferentiableFunction :=
  {| inputSize := n; outputSize := s;
     call := fun _ => replicate s a;
     gradient := fun _ _ => replicate n 0%float;
     jacobian := fun _ => replicate s (replicate n 0%float) |}.

(** The sum of the variables. *)
Definition total (n : nat) : DifferentiableFunction :=
  {| inputSize := n; outputSize := 1;
     call := fun x => [foldr PrimFloat.add 0%float x];
     gradient := fun _ _ => replicate n 1%float;
     jacobian := fun _ => [replicate n 1%float] |}.

Definition empty_Tnlp : Tnlp :=
  {| cost_ := [0%float]; costGradient_ := []; constraints_ := []; jacobian_ := [];
     result_ := NoSolution; evals := [] |}.

(** The adapter as it is built for a problem of [n] variables whose
    constraints have [rows] outputs in all, its buffers holding 9. *)
Definition built (rows n : nat) : Tnlp :=
  {| cost_ := [9%float]; costGradient_ := replicate n 9%float;
     constraints_ := replicate rows (replicate n 9%float);
     jacobian_ := replicate rows (replicate n 9%float);
     result_ := NoSolution; evals := [] |}.

(** [a * x0 + b * x1]. *)
Definition linear2 (a b : Number) : DifferentiableFunction :=
  {| inputSize := 2; outputSize := 1;
     call := fun x => [(a * nth 0 x 0 + b * nth 1 x 0)%float];
     gradient := fun _ _ => [a; b];
     jacobian := fun _ => [[a; b]] |}.

(** One variable, one constraint of one output. *)
Definition pb_one (start : option vector_t) : problem :=
  {| function := total 1;
     constraints := [(NONLINEAR, constant 1 1 0%float)];
     argumentBounds := [(0%float, 1%float)];
     boundsVector := [[(0%float, 1%float)]];
     argumentScales := [1%float];
     scalesVector := [[1%float]];
     startingPoint := start |}.

(** One variable; a constraint of two outputs scaled 2 and 3, then one of a
    single output scaled 5. *)
Definition pb_scales : problem :=
  {| function := total 1;
     constraints := [(NONLINEAR, constant 1 2 0%float); (LINEAR, constant 1 1 0%float)];
     argumentBounds := [(0%float, 1%float)];
     boundsVector := [[(0%float, 1%float); (0%float, 1%float)]; [(0%float, 1%float)]];
     argumentScales := [1%float];
     scalesVector := [[2%float; 3%float]; [5%float]];
     startingPoint := Some [0%float] |}.

(** One variable; a constraint of two outputs and one of none. *)
Definition pb_two_none : problem :=
  {| function := total 1;
     constraints := [(NONLINEAR, constant 1 2 0%float); (NONLINEAR, constant 1 0 0%float)];
     argumentBounds := [(0%float, 1%float)];
     boundsVector := [[(0%float, 1%float); (0%float, 1%float)]; []];
     argumentScales := [1%float];
     scalesVector := [[1%float; 1%float]; []];
     startingPoint := Some [0%float] |}.

(** Two variables; [x0 + 2 x1] and [3 x0 + 4 x1], one output each. *)
Definition pb_square : problem :=
  {| function := total 2;
     constraints := [(LINEAR, linear2 1 2); (LINEAR, linear2 3 4)];
     argumentBounds := [(0%float, 1%float); (0%float, 1%float)];
     boundsVector := [[(0%float, 1%float)]; [(0%float, 1%float)]];
     argumentScales := [1%float; 1%float];
     scalesVector := [[1%float]; [1%float]];
     startingPoint := Some [0%float; 0%float] |}.

End DenseExamples.

Module SparseExamples.
Import Sparse.

(** An objective of [n] variables; the sparse adapter's Jacobian callbacks
    read its input size only. *)
Definition objective (n : nat) : DifferentiableSparseFunction :=
  {| inputSize := n; outputSize := 1;
     jacobian := fun _ => {| rows := 1; cols := n; outer := replicate n [] |};
     jacobian_into := fun jac _ => jac |}.

(** [x0 + x1]: the Jacobian stores a one in each of its two columns. *)
Definition sum2 : DifferentiableSparseFunction :=
  {| inputSize := 2; outputSize := 1;
     jacobian := fun _ =>
       {| rows := 1; cols := 2; outer := [[(0%nat, 1%float)]; [(0%nat, 1%float)]] |};
     jacobian_into := fun jac _ =>
       {| rows := rows jac; cols := cols jac;
          outer := map (map (fun e : entry => (fst e, 1%float))) (outer jac) |} |}.

(** [x0 * x0 + x1 * x1]: the Jacobian stores [2 * x0] and [2 * x1]. *)
Definition squares2 : DifferentiableSparseFunction :=
  {| inputSize := 2; outputSize := 1;
     jacobian := fun x =>
       {| rows := 1; cols := 2;
          outer := [[(0%nat, (2 * nth 0 x 0)%float)]; [(0%nat, (2 * nth 1 x 0)%float)]] |};
     jacobian_into := fun jac x =>
       {| rows := rows jac; cols := cols jac;
          outer := imap (fun k => map (fun e : entry => (fst e, (2 * nth k x 0)%float)))
                        (outer jac) |} |}.

(** [x0 * x0] of one variable, written as a function that stores the
    derivative [2 * x0] only where it is not zero; evaluated into a matrix, it
    writes the derivative at the position the matrix has. *)
Definition square1 : DifferentiableSparseFunction :=
  {| inputSize := 1; outputSize := 1;
     jacobian := fun x =>
       let d := (2 * nth 0 x 0)%float in
       {| rows := 1; cols := 1;
          outer := [if (d =? 0)%float then [] else [(0%nat, d)]] |};
     jacobian_into := fun jac x =>
       {| rows := rows jac; cols := cols jac;
          outer := map (map (fun e : entry => (fst e, (2 * nth 0 x 0)%float))) (outer jac) |} |}.

(** [x0 * x0] again, but evaluated into a matrix by building the Jacobian
    anew: the derivative is stored only where it is not zero, whatever the
    matrix stored before. *)
Definition square1_rebuilt : DifferentiableSparseFunction :=
  {| inputSize := 1; outputSize := 1;
     jacobian := jacobian square1;
     jacobian_into := fun _ x => jacobian square1 x |}.

Definition fresh : Tnlp :=
  {| jacobian_ := None; constraintJacobians_ := []; evals := [] |}.

(** Two variables in [-10, 10], [x0 + x1 = 1] and [x0 * x0 + x1 * x1 <= 4],
    starting at the origin. *)
Definition pb_two : problem :=
  {| function := objective 2;
     constraints := [(LINEAR, sum2); (NONLINEAR, squares2)];
     argumentBounds := [((-10)%float, 10%float); ((-10)%float, 10%float)];
     boundsVector := [[(1%float, 1%float)]; [(neg_infinity, 4%float)]];
     argumentScales := [1%float; 1%float];
     scalesVector := [[1%float]; [1%float]];
     startingPoint := Some [0%float; 0%float] |}.

(** One variable and the constraint [square1] with the interval [b], without
    a starting point. *)
Definition pb_interval (b : Number * Number) : problem :=
  {| function := objective 1;
     constraints := [(NONLINEAR, square1)];
     argumentBounds := [((-10)%float, 10%float)];
     boundsVector := [[b]];
     argumentScales := [1%float];
     scalesVector := [[1%float]];
     startingPoint := None |}.

(** The same with a starting point. *)
Definition pb_started (b : Number * Number) (start : list Number) : problem :=
  {| function := objective 1;
     constraints := [(NONLINEAR, square1)];
     argumentBounds := [((-10)%float, 10%float)];
     boundsVector := [[b]];
     argumentScales := [1%float];
     scalesVector := [[1%float]];
     startingPoint := Some start |}.

(** One variable and the constraint [square1_rebuilt], started at [start]. *)
Definition pb_rebuilt (start : list Number) : problem :=
  {| function := objective 1;
     constraints := [(NONLINEAR, square1_rebuilt)];
     argumentBounds := [((-10)%float, 10%float)];
     boundsVector := [[(0%float, 4%float)]];
     argumentScales := [1%float];
     scalesVector := [[1%float]];
     startingPoint := Some start |}.

(** The adapter after the first structural query on [pb_two], asked with
    buffers of four entries. *)
Definition structured : Tnlp :=
  match eval_jac_g ColMajor pb_two fresh 2 [] true 2 4 [9; 9; 9; 9] [9; 9; 9; 9] None with
  | Done r => snd r
  | _ => fresh
  end.

(** The constraints of [pb_two] as a row-major build stores them: one inner
    vector for the single row, with an entry in each of the two columns. *)
Definition sum2_rows : DifferentiableSparseFunction :=
  {| inputSize := 2; outputSize := 1;
     jacobian := fun _ =>
       {| rows := 1; cols := 2; outer := [[(0%nat, 1%float); (1%nat, 1%float)]] |};
     jacobian_into := fun jac _ =>
       {| rows := rows jac; cols := cols jac;
          outer := map (map (fun e : entry => (fst e, 1%float))) (outer jac) |} |}.

Definition squares2_rows : DifferentiableSparseFunction :=
  {| inputSize := 2; outputSize := 1;
     jacobian := fun x =>
       {| rows := 1; cols := 2;
          outer := [[(0%nat, (2 * nth 0 x 0)%float); (1%nat, (2 * nth 1 x 0)%float)]] |};
     jacobian_into := fun jac x =>
       {| rows := rows jac; cols := cols jac;
          outer := map (map (fun e : entry => (fst e, (2 * nth (fst e) x 0)%float)))
                       (outer jac) |} |}.

Definition pb_two_rows : problem :=
  {| function := objective 2;
     constraints := [(LINEAR, sum2_rows); (NONLINEAR, squares2_rows)];
     argumentBounds := [((-10)%float, 10%float); ((-10)%float, 10%float)];
     boundsVector := [[(1%float, 1%float)]; [(neg_infinity, 4%float)]];
     argumentScales := [1%float; 1%float];
     scalesVector := [[1%float]; [1%float]];
     startingPoint := Some [0%float; 0%float] |}.

(** The adapter after the first structural query on [pb_two_rows]. *)
Definition structured_rows : Tnlp :=
  match eval_jac_g RowMajor pb_two_rows fresh 2 [] true 2 4 [9; 9; 9; 9] [9; 9; 9; 9] None with
  | Done r => snd r
  | _ => fresh
  end.

End SparseExamples.

(** * Properties of the dense adapter *)

Module DenseFacts.
Import Dense.

Lemma diff_is_zero_refl bits a : diff_is_zero bits a a = true.
Proof. unfold diff_is_zero. rewrite Z.sub_diag, Zmod_0_l. reflexivity. Qed.

(** A difference that is zero in the unsigned type is an equality, for a
    size and an index both below [2 ^ 31]. *)
Lemma diff_is_zero_64_eq a b :
  0 <= a < 2 ^ 31 -> - 2 ^ 31 <= b < 2 ^ 31 ->
  diff_is_zero 64 a b = true <-> a = b.
Proof.
  intros Ha Hb. unfold diff_is_zero. rewrite Z.eqb_eq.
  change (2 ^ 64) with 18446744073709551616.
  change (2 ^ 31) with 2147483648 in *.
  split; [| intros ->; rewrite Z.sub_diag; reflexivity].
  intros H. apply Z.mod_divide in H; [| lia]. destruct H as [q Hq]. lia.
Qed.

Lemma to_Index_small z : 0 <= z < 2 ^ 31 -> to_Index z = z.
Proof.
  intros H. unfold to_Index. change (2 ^ 31) with 2147483648 in *.
  change (2 ^ 32) with 4294967296.
  rewrite Z.mod_small by lia. simpl.
  destruct (z <? 2147483648) eqn:E; [reflexivity | apply Z.ltb_ge in E; lia].
Qed.

(** ** The outcome of a solve *)



(** ** The starting point *)

(** C7.  Under the asserted sizes, and with multiplier buffers of n entries
    when they are to be initialised: without a starting point, and asked to
    initialise the point, the callback evaluates nothing, records the error
    "Ipopt method needs a starting point." and returns false; with a starting
    point it returns true, leaves the adapter as it was and hands the
    starting point to the engine. *)
Theorem get_starting_point_missing (pb : problem) (t : Tnlp) (n : Index) (init_x : bool)
    (x : list Number) (init_z : bool) (z_L z_U : list Number) (m : Index) :
  diff_is_zero 64 (Z.of_nat (inputSize (function pb))) n = true ->
  diff_is_zero 32 (constraintsOutputSize pb) m = true ->
  (init_z = true -> (Z.to_nat n <= length z_L /\ Z.to_nat n <= length z_U)%nat) ->
  let r := get_starting_point pb t n init_x x init_z z_L z_U m false in
  (startingPoint pb = None -> init_x = true ->
   exists sp t',
     r = Done (false, sp, t') /\
     result_ t' = SolverError "Ipopt method needs a starting point." /\
     evals t' = evals t /\ sp_x sp = x)
  /\
  (forall start, startingPoint pb = Some start ->
   exists sp, r = Done (true, sp, t) /\ sp_x sp = start).
Proof.
  intros Hn Hm Hz r. subst r. unfold get_starting_point. rewrite Hn, Hm. simpl.
  assert (Hones : exists z, (if init_z then ones n z_L z_U else Done (z_L, z_U)) = Done z).
  { destruct init_z; [| eexists; reflexivity]. unfold ones.
    destruct (decide _) as [_ | Hbad]; [eexists; reflexivity | destruct (Hbad (Hz eq_refl))]. }
  destruct Hones as [z ->]. simpl.
  split.
  - intros -> ->. eexists _, _. repeat split.
  - intros start ->. eexists. repeat split.
Qed.

Lemma get_starting_point_missing_witness :
  exists sp t',
    get_starting_point (DenseExamples.pb_one None) DenseExamples.empty_Tnlp 1 true
        [7%float] true [0%float] [0%float] 1 false
    = Done (false, sp, t') /\
    result_ t' = SolverError "Ipopt method needs a starting point." /\
    evals t' = evals DenseExamples.empty_Tnlp /\ sp_x sp = [7%float].
Proof.
  refine (proj1 (get_starting_point_missing (DenseExamples.pb_one None)
                   DenseExamples.empty_Tnlp 1 true [7%float] true [0%float] [0%float] 1
                   eq_refl eq_refl _)
                eq_refl eq_refl).
  intros _. simpl. lia.
Defined.

(** ** Blocks and maps *)

Lemma lookup_blocks {A} (f : nat -> list A) (N a M i j : nat) :
  (forall k, length (f k) = N) -> (i < M)%nat -> (j < N)%nat ->
  flat_map f (seq a M) !! (i * N + j)%nat = f (a + i)%nat !! j.
Proof.
  intros Hf. revert a i. induction M as [| M IH]; intros a i Hi Hj; [lia |].
  simpl. destruct i as [| i].
  - rewrite Nat.add_0_r. simpl. apply lookup_app_l. rewrite Hf. exact Hj.
  - pose proof (Hf a) as Ha.
    replace (S i * N + j)%nat with (length (f a) + (i * N + j))%nat by (simpl; lia).
    rewrite lookup_app_r by apply Nat.le_add_r.
    rewrite Nat.add_comm, Nat.add_sub.
    rewrite IH by lia. replace (S a + i)%nat with (a + S i)%nat by lia. reflexivity.
Qed.

Lemma length_blocks {A} (f : nat -> list A) (N a M : nat) :
  (forall k, length (f k) = N) -> length (flat_map f (seq a M)) = (M * N)%nat.
Proof.
  intros Hf. revert a. induction M as [| M IH]; intros a; simpl; [reflexivity |].
  rewrite length_app, Hf, IH. reflexivity.
Qed.

Lemma lookup_rows {A} (n : nat) (M : list (list A)) (i j : nat) (row : list A) :
  Forall (fun r => length r = n) M -> M !! i = Some row -> (j < n)%nat ->
  concat M !! (i * n + j)%nat = row !! j.
Proof.
  intros HM. revert i. induction HM as [| r M Hr _ IH]; intros i Hi Hj; [discriminate |].
  destruct i as [| i]; simpl in *.
  - injection Hi as ->. apply lookup_app_l. lia.
  - rewrite lookup_app_r by lia.
    replace (n + i * n + j - length r)%nat with (i * n + j)%nat by lia.
    apply IH; assumption.
Qed.

Lemma length_concat_rows {A} (n : nat) (M : list (list A)) :
  Forall (fun r => length r = n) M -> length (concat M) = (length M * n)%nat.
Proof. induction 1 as [| r M Hr _ IH]; simpl; [reflexivity |]. rewrite length_app, IH, Hr. lia. Qed.

Lemma length_coefficients (so : StorageOrder_t) (n : nat) (M : list (list float)) :
  Forall (fun r => length r = n) M -> length (coefficients so n M) = (length M * n)%nat.
Proof.
  intros HM. destruct so; simpl.
  - rewrite (length_blocks _ (length M)) by (intros k; apply length_map). lia.
  - apply length_concat_rows. exact HM.
Qed.

(** Where the coefficients of a matrix go in storage order. *)
Lemma lookup_coefficients (so : StorageOrder_t) (n : nat) (M : list (list float))
    (i j : nat) (row : list float) (a : float) :
  Forall (fun r => length r = n) M -> M !! i = Some row -> row !! j = Some a ->
  coefficients so n M
  !! (match so with RowMajor => i * n + j | ColMajor => j * length M + i end)%nat
  = Some a.
Proof.
  intros HM Hi Hj.
  assert (Hn : (j < n)%nat).
  { rewrite <- (proj1 (Forall_lookup _ _) HM i row Hi). eapply lookup_lt_Some. exact Hj. }
  destruct so; simpl.
  - rewrite (lookup_blocks _ (length M)); [| intros k; apply length_map | exact Hn |].
    + simpl. rewrite list_lookup_fmap, Hi. simpl. f_equal.
      apply nth_lookup_Some with (d := 0%float). exact Hj.
    + eapply lookup_lt_Some. exact Hi.
  - rewrite (lookup_rows n M i j row HM Hi Hn). exact Hj.
Qed.

Lemma assign_map_Done (so : StorageOrder_t) (p p' : list float) (m n : Z)
    (M : list (list float)) :
  assign_map so p m n M = Done p' ->
  (0 <= m /\ 0 <= n /\ length M = Z.to_nat m /\
   Forall (fun row => length row = Z.to_nat n) M) /\
  holds so (Z.to_nat m) (Z.to_nat n) M p p'.
Proof.
  unfold assign_map. destruct (decide _) as [(Hm & Hn & Hrows & Hcols & Hlen) |]; [| discriminate].
  intros [= <-]. split; [auto |].
  pose proof (length_coefficients so _ M Hcols) as Hl.
  unfold holds, copy_into. split; [| split].
  - rewrite length_app, length_drop. lia.
  - intros i j row a Hi Hj. rewrite <- Hrows.
    rewrite lookup_app_l.
    + apply (lookup_coefficients so _ M i j row a Hcols Hi Hj).
    + eapply lookup_lt_Some. apply (lookup_coefficients so _ M i j row a Hcols Hi Hj).
  - intros k Hk. rewrite lookup_app_r by lia. rewrite lookup_drop. f_equal. lia.
Qed.




Lemma set_block_misfit (M : list (list float)) (idx s n c : nat) (src : list (list float)) :
  length src <> s \/ c <> n \/ ~ Forall (fun row => length row = c) src ->
  set_block M idx s n c src = OutOfBounds.
Proof.
  intros H. unfold set_block. destruct (decide _) as [(_ & _ & H1 & H2 & H3) |]; [| reflexivity].
  tauto.
Qed.

Lemma set_block_no_assert (M : list (list float)) (idx s n c : nat)
    (src : list (list float)) :
  set_block M idx s n c src <> AssertionFailed.
Proof. unfold set_block. destruct (decide _); discriminate. Qed.

Lemma fill_blocks_no_assert value cols mk cs n id idx M ev :
  fill_blocks value cols mk cs n id idx M ev <> AssertionFailed.
Proof.
  revert id idx M ev. induction cs as [| c cs IH]; intros id idx M ev; simpl; [discriminate |].
  unfold set_block. destruct (decide _); simpl; [apply IH | discriminate].
Qed.

Lemma assign_map_no_assert so p m n M : assign_map so p m n M <> AssertionFailed.
Proof. unfold assign_map. destruct (decide _); discriminate. Qed.







(** ** The evaluation cache *)






(** ** The scaling query *)

(** C8.  On a problem whose first constraint has two outputs, scaled 2 and 3,
    and whose second has one, scaled 5, the engine asks for m = 3 scales:
    the flattened scales are 2, 3, 5, but the query writes 3 and 5 at
    indices 0 and 1 (the last scale of constraint i at index i) and then reads
    a third constraint that does not exist. *)
Theorem get_scaling_parameters_by_constraint :
  let pb := DenseExamples.pb_scales in
  let zero := 0%float in
  info_m (snd (get_nlp_info pb)) = 3 /\
  concat (scalesVector pb) = [2%float; 3%float; 5%float] /\
  scaling_loop (scalesVector pb) 2 0 [zero; zero; zero] = Done [3%float; 5%float; zero] /\
  get_scaling_parameters pb 1 [zero] 3 [zero; zero; zero] = OutOfBounds.
Proof. repeat split. Qed.

(** ** The number of constraints the numeric callbacks assert *)

Lemma constraintsOutputSize_fold (cs : list (which_t * DifferentiableFunction)) (r : Z) :
  0 <= r ->
  r + Z.of_nat (sum_list (map (fun c => outputSize (snd c)) cs)) < 2 ^ 32 ->
  fold_left (fun result c => unsigned_wrap (result + Z.of_nat (outputSize (snd c)))) cs r
  = r + Z.of_nat (sum_list (map (fun c => outputSize (snd c)) cs)).
Proof.
  revert r. induction cs as [| c cs IH]; intros r Hr Hlt; simpl in *.
  - lia.
  - rewrite IH.
    + unfold unsigned_wrap. rewrite Z.mod_small by lia. lia.
    + unfold unsigned_wrap. apply Z.mod_pos_bound. reflexivity.
    + unfold unsigned_wrap. rewrite Z.mod_small by lia. lia.
Qed.

Lemma constraintsOutputSize_sum (pb : problem) :
  Z.of_nat (sum_list (output_sizes pb)) < 2 ^ 31 ->
  constraintsOutputSize pb = Z.of_nat (sum_list (output_sizes pb)).
Proof.
  intros H. unfold constraintsOutputSize, output_sizes in *.
  rewrite constraintsOutputSize_fold; [lia | lia |].
  change (2 ^ 32) with 4294967296. change (2 ^ 31) with 2147483648 in H. lia.
Qed.

Lemma sizes_at_least_one (l : list nat) :
  Forall (fun s => (1 <= s)%nat) l -> (length l <= sum_list l)%nat.
Proof. induction 1; simpl; lia. Qed.

Lemma sizes_all_one (l : list nat) :
  Forall (fun s => (1 <= s)%nat) l -> sum_list l = length l -> Forall (fun s => s = 1%nat) l.
Proof.
  induction 1 as [| s l Hs Hpos IH]; simpl; intros Hsum; constructor;
    pose proof (sizes_at_least_one l Hpos); [lia | apply IH; lia].
Qed.

Lemma sizes_one_sum (l : list nat) :
  Forall (fun s => s = 1%nat) l -> sum_list l = length l.
Proof. induction 1; simpl; lia. Qed.

(** The numeric callbacks stop on an assertion exactly when one of their two
    tests fails. *)
Lemma eval_g_asserts (so : StorageOrder_t) (pb : problem) t n x new_x m g :
  eval_g so pb t n x new_x m g <> AssertionFailed <->
  diff_is_zero 64 (Z.of_nat (inputSize (function pb))) n = true /\
  diff_is_zero 64 (Z.of_nat (length (constraints pb))) m = true.
Proof.
  unfold eval_g.
  destruct (diff_is_zero 64 (Z.of_nat (inputSize (function pb))) n);
    destruct (diff_is_zero 64 (Z.of_nat (length (constraints pb))) m); simpl;
    try (split; try congruence; try tauto; intros [? ?]; congruence).
  split; [tauto | intros _].
  destruct new_x; simpl.
  - pose proof (fill_blocks_no_assert (fun f => as_column (call f (map_vector x n)))
                  (fun _ => 1%nat) (fun id => EvalConstraint id (map_vector x n))
                  (constraints pb) (Z.to_nat n) 0 0 (constraints_ t) (evals t)) as Hf.
    destruct (fill_blocks _ _ _ _ _ _ _ _ _) as [r | |]; simpl; try congruence.
    pose proof (assign_map_no_assert so g m n (fst r)) as Ha.
    destruct (assign_map _ _ _ _ _); simpl; congruence.
  - pose proof (assign_map_no_assert so g m n (constraints_ t)) as Ha.
    destruct (assign_map _ _ _ _ _); simpl; congruence.
Qed.

Lemma eval_jac_g_asserts (so : StorageOrder_t) (pb : problem) t n x new_x m iRow jCol values :
  eval_jac_g so pb t n x new_x m iRow jCol values <> AssertionFailed <->
  diff_is_zero 64 (Z.of_nat (inputSize (function pb))) n = true /\
  diff_is_zero 64 (Z.of_nat (length (constraints pb))) m = true.
Proof.
  unfold eval_jac_g.
  destruct (diff_is_zero 64 (Z.of_nat (inputSize (function pb))) n);
    destruct (diff_is_zero 64 (Z.of_nat (length (constraints pb))) m); simpl;
    try (split; try congruence; try tauto; intros [? ?]; congruence).
  split; [tauto | intros _].
  destruct values as [values |]; [| destruct (decide _); discriminate].
  destruct new_x; simpl.
  - pose proof (fill_blocks_no_assert (fun f => jacobian f (map_vector x n))
                  (width (Z.to_nat n)) (fun id => EvalJacobian id (map_vector x n))
                  (constraints pb) (Z.to_nat n) 0 0 (jacobian_ t) (evals t)) as Hf.
    destruct (fill_blocks _ _ _ _ _ _ _ _ _) as [r | |]; simpl; try congruence.
    pose proof (assign_map_no_assert so values m n (fst r)) as Ha.
    destruct (assign_map _ _ _ _ _); simpl; congruence.
  - pose proof (assign_map_no_assert so values m n (jacobian_ t)) as Ha.
    destruct (assign_map _ _ _ _ _); simpl; congruence.
Qed.

(** C9, as it stands, fails: with a constraint of two outputs and a
    constraint of none, m as [get_nlp_info] reports it is 2, the number of
    constraints, so both assertions pass, yet no constraint has one output. *)
Lemma dense_m_assertion_counterexample :
  let pb := DenseExamples.pb_two_none in
  let info := snd (get_nlp_info pb) in
  ~ ((eval_g RowMajor pb (DenseExamples.built 2 1) (info_n info) [0%float] true (info_m info)
             [0%float; 0%float]
      <> AssertionFailed /\
      eval_jac_g RowMajor pb (DenseExamples.built 2 1) (info_n info) [0%float] true
                 (info_m info) [] [] (Some [0%float; 0%float]) <> AssertionFailed)
     <-> Forall (fun s => s = 1%nat) (output_sizes pb)).
Proof.
  intros pb info [H _].
  assert (Hall : Forall (fun s => s = 1%nat) (output_sizes pb)).
  { apply H. split; vm_compute; discriminate. }
  inversion Hall as [| ? ? Hs _]. discriminate Hs.
Qed.

(** C9, amended.  For a problem whose sizes fit an [Index] and whose
    constraints all have at least one output, the assertions of [eval_g] and
    [eval_jac_g] pass on the n and m that [get_nlp_info] reports exactly when
    every constraint has one output. *)
Theorem dense_m_assertion (so : StorageOrder_t) (pb : problem) (t : Tnlp) (x : list Number)
    (new_x : bool) (g : list Number) (iRow jCol : list Index)
    (values : option (list Number)) :
  Z.of_nat (inputSize (function pb)) < 2 ^ 31 ->
  Z.of_nat (sum_list (output_sizes pb)) < 2 ^ 31 ->
  Forall (fun s => (1 <= s)%nat) (output_sizes pb) ->
  let info := snd (get_nlp_info pb) in
  (eval_g so pb t (info_n info) x new_x (info_m info) g <> AssertionFailed /\
   eval_jac_g so pb t (info_n info) x new_x (info_m info) iRow jCol values
   <> AssertionFailed)
  <-> Forall (fun s => s = 1%nat) (output_sizes pb).
Proof.
  intros Hn Hsum Hpos info. subst info. simpl.
  rewrite eval_g_asserts, eval_jac_g_asserts.
  rewrite (to_Index_small (Z.of_nat (inputSize (function pb)))) by lia.
  rewrite constraintsOutputSize_sum by exact Hsum.
  rewrite (to_Index_small (Z.of_nat (sum_list (output_sizes pb)))) by lia.
  rewrite diff_is_zero_refl.
  assert (Hlen : (length (constraints pb) <= sum_list (output_sizes pb))%nat).
  { rewrite <- (length_map (fun c => outputSize (snd c)) (constraints pb)).
    apply sizes_at_least_one. exact Hpos. }
  rewrite diff_is_zero_64_eq by (change (2 ^ 31) with 2147483648 in *; lia).
  split.
  - intros [[_ H] _]. apply sizes_all_one; [exact Hpos |].
    unfold output_sizes in *. rewrite length_map. lia.
  - intros H. apply sizes_one_sum in H. unfold output_sizes in *.
    rewrite length_map in H. repeat split; lia.
Qed.

Lemma dense_m_assertion_witness :
  let pb := DenseExamples.pb_one None in
  (eval_g RowMajor pb (DenseExamples.built 1 1) 1 [0%float] true 1 [0%float]
   <> AssertionFailed /\
   eval_jac_g RowMajor pb (DenseExamples.built 1 1) 1 [0%float] true 1 [] [] (Some [0%float])
   <> AssertionFailed)
  <-> Forall (fun s => s = 1%nat) (output_sizes pb).
Proof.
  refine (dense_m_assertion RowMajor (DenseExamples.pb_one None) (DenseExamples.built 1 1)
            [0%float] true [0%float] [] [] (Some [0%float]) _ _ _).
  - reflexivity.
  - reflexivity.
  - repeat constructor.
Defined.

End DenseFacts.

(** * Properties of the sparse adapter *)

Module SparseFacts.
Import Sparse.

(** ** The point of the structural query *)

(** C3.  Without a starting point, the component picked from the interval
    [1, 3] is 1, half the width, where the midpoint is 2; from an interval
    without lower bound and with upper bound 5 it is [+infinity], and from the
    interval without bounds it is [-infinity].  With a starting point, the
    point is the starting point. *)
Theorem evaluation_point_half_width :
  evaluation_point (SparseExamples.pb_interval (1%float, 3%float)) 0 1 = Done [1%float] /\
  ((1 + 3) / 2 = 2)%float /\
  evaluation_point (SparseExamples.pb_interval (neg_infinity, 5%float)) 0 1
  = Done [PrimFloat.infinity] /\
  evaluation_point (SparseExamples.pb_interval (neg_infinity, PrimFloat.infinity)) 0 1
  = Done [neg_infinity] /\
  evaluation_point (SparseExamples.pb_started (1%float, 3%float) [7%float]) 0 1
  = Done [7%float].
Proof. repeat split. Qed.

(** C4.  The component picked from an interval without lower bound is not
    finite, whether the upper bound is 5 or missing too; and for a
    constraint of one output in a problem of two variables the second
    component is read outside the constraint's intervals. *)
Theorem evaluation_point_not_finite :
  (exists a, evaluation_point (SparseExamples.pb_interval (neg_infinity, 5%float)) 0 1
             = Done [a] /\ is_finite a = false) /\
  (exists a, evaluation_point
               (SparseExamples.pb_interval (neg_infinity, PrimFloat.infinity)) 0 1
             = Done [a] /\ is_finite a = false) /\
  from_bounds [[(0%float, 1%float)]] 0 2 0 = OutOfBounds.
Proof. repeat split; eexists; split; reflexivity. Qed.

(** ** The number of non-zeros and the structure *)

(** C10.  For the constraint [x0 * x0] on the interval [0, 4] and no starting
    point, [get_nlp_info] counts the non-zeros at the origin and reports none,
    while the structural query evaluates at 2 and has one coordinate to
    write: with the buffers of the reported length it writes outside them, and
    with room for one entry it writes the coordinate (0, 0). *)
Theorem nnz_jac_g_at_origin :
  let pb := SparseExamples.pb_interval (0%float, 4%float) in
  info_nnz_jac_g (snd (fst (get_nlp_info pb SparseExamples.fresh))) = 0 /\
  eval_jac_g ColMajor pb SparseExamples.fresh 1 [] true 1 0 [] [] None = OutOfBounds /\
  exists t1,
    eval_jac_g ColMajor pb SparseExamples.fresh 1 [] true 1 1 [9] [9] None
    = Done (true, Structure [0] [0], t1).
Proof. repeat split. eexists. reflexivity. Qed.

(** C2.  On the problem of two variables and two constraints started at the
    origin, the structural query asked twice writes the same four coordinates
    both times; but the second call evaluates the two Jacobians again and
    appends them to the two it stored, so that the numeric query that
    follows, which succeeds after one structural call, has eight values for
    the four places of the engine and stops on its assertion. *)
Theorem structure_twice :
  let pb := SparseExamples.pb_two in
  let structure t := eval_jac_g ColMajor pb t 2 [] true 2 4 [9; 9; 9; 9] [9; 9; 9; 9] None in
  let numeric t :=
    eval_jac_g ColMajor pb t 2 [1%float; 1%float] true 2 4 [] []
               (Some [0%float; 0%float; 0%float; 0%float]) in
  exists t1 t2 t3,
    structure SparseExamples.fresh = Done (true, Structure [0; 1; 0; 1] [0; 0; 1; 1], t1) /\
    structure t1 = Done (true, Structure [0; 1; 0; 1] [0; 0; 1; 1], t2) /\
    length (constraintJacobians_ t1) = 2%nat /\
    length (constraintJacobians_ t2) = 4%nat /\
    jacobian_evaluations (evals t1) = 2%nat /\
    jacobian_evaluations (evals t2) = 4%nat /\
    numeric t1 = Done (true, Values [1%float; 2%float; 1%float; 2%float], t3) /\
    numeric t2 = AssertionFailed.
Proof. eexists _, _, _. repeat split. Qed.

(** ** What the structural query stores *)

Lemma collect_spec (pb : problem) (so : StorageOrder_t) cs id idx Js T ev r :
  collect pb so (Z.of_nat (inputSize (function pb))) cs id idx Js T ev = Done r ->
  let new := imap (fun i c => structural_jacobian pb (id + i) c) cs in
  fst (fst r) = Js ++ new /\
  snd (fst r) = T ++ all_triplets so new (map (fun c => outputSize (snd c)) cs) idx /\
  jacobian_evaluations (snd r) = (jacobian_evaluations ev + length cs)%nat.
Proof.
  revert id idx Js T ev. induction cs as [| c cs IH]; intros id idx Js T ev; simpl.
  - intros [= <-]. simpl. rewrite !app_nil_r. repeat split. lia.
  - unfold structural_jacobian at 1 2 3, structural_point at 1 2 3.
    destruct (evaluation_point pb id _) as [x | |] eqn:Ex; simpl; try discriminate.
    intros H. apply IH in H. destruct H as (HJ & HT & Hev).
    assert (Hi : imap (fun i c0 => structural_jacobian pb (S id + i) c0) cs
                 = imap ((fun i c0 => structural_jacobian pb (id + i) c0) ∘ S) cs).
    { apply imap_ext. intros i c0 _. simpl. f_equal. lia. }
    rewrite Hi in HJ, HT. rewrite Nat.add_0_r, Ex.
    rewrite HJ, HT, Hev, <- !app_assoc. simpl. repeat split.
    unfold jacobian_evaluations. rewrite filter_app, length_app.
    rewrite filter_cons_True by reflexivity. rewrite filter_nil. simpl. lia.
Qed.

(** ** Assembling the whole Jacobian *)

Lemma insert_entry_last (i : nat) (v : Number) (l : list entry) :
  Forall (fun e => (fst e < i)%nat) l -> insert_entry i v l = l ++ [(i, v)].
Proof.
  induction 1 as [| e l He Hl IH]; simpl; [reflexivity |].
  destruct (i <? fst e)%nat eqn:E1; [apply Nat.ltb_lt in E1; lia |].
  destruct (i =? fst e)%nat eqn:E2; [apply Nat.eqb_eq in E2; lia |].
  rewrite IH. reflexivity.
Qed.

Lemma assemble_from (l acc : list entry) :
  StronglySorted lt (map fst (acc ++ l)) ->
  fold_left (fun a e => insert_entry (fst e) (snd e) a) l acc = acc ++ l.
Proof.
  revert acc. induction l as [| e l IH]; intros acc Hs; simpl.
  - rewrite app_nil_r. reflexivity.
  - rewrite insert_entry_last.
    + destruct e as [i v]. simpl. rewrite IH; rewrite <- app_assoc; [reflexivity | exact Hs].
    + rewrite map_app in Hs. apply StronglySorted_app in Hs. destruct Hs as (Hlt & _ & _).
      apply Forall_forall. intros e' He'. apply Hlt.
      * apply list_elem_of_fmap. exists e'. split; [reflexivity | exact He'].
      * simpl. left.
Qed.

(** A vector already in increasing inner index is assembled as it is. *)
Lemma assemble_sorted (l : list entry) :
  StronglySorted lt (map fst l) -> assemble l = l.
Proof. intros H. unfold assemble. rewrite assemble_from; [reflexivity | exact H]. Qed.

Lemma flat_map_seq_ext {A} (f g : nat -> list A) (a n : nat) :
  (forall k, (a <= k < a + n)%nat -> f k = g k) -> flat_map f (seq a n) = flat_map g (seq a n).
Proof.
  revert a. induction n as [| n IH]; intros a H; simpl; [reflexivity |].
  rewrite H by lia. rewrite IH; [reflexivity |]. intros k Hk. apply H. lia.
Qed.

(** The triplets of column [k] among those of one Jacobian. *)
Lemma filter_column_seq (off : nat) (M : jacobian_t) (k a n : nat) :
  filter (fun t => t_outer ColMajor t = k)
         (flat_map (fun k' =>
                      map (fun e => {| t_row := off + it_row ColMajor k' e;
                                       t_col := it_col ColMajor k' e;
                                       t_value := snd e |})
                          (inner_vector M k'))
                   (seq a n))
  = if decide (a <= k < a + n)%nat
    then map (fun e => {| t_row := off + fst e; t_col := k; t_value := snd e |})
             (inner_vector M k)
    else [].
Proof.
  revert a. induction n as [| n IH]; intros a; simpl.
  - destruct (decide _); [lia | reflexivity].
  - rewrite filter_app, IH.
    assert (Hhere : forall l : list entry,
               filter (fun t => t_outer ColMajor t = k)
                      (map (fun e => {| t_row := off + fst e; t_col := a;
                                        t_value := snd e |}) l)
               = if decide (a = k)
                 then map (fun e => {| t_row := off + fst e; t_col := a;
                                       t_value := snd e |}) l
                 else []).
    { intros l. destruct (decide (a = k)) as [Hak | Hak].
      - induction l as [| e l IHl]; [reflexivity |].
        rewrite map_cons, filter_cons_True by exact Hak. f_equal. exact IHl.
      - induction l as [| e l IHl]; [reflexivity |].
        rewrite map_cons, filter_cons_False by exact Hak. exact IHl. }
    rewrite Hhere.
    destruct (decide (a = k)); destruct (decide (S a <= k < S a + n)%nat);
      destruct (decide (a <= k < a + S n)%nat); try lia; subst;
      rewrite ?app_nil_r; reflexivity.
Qed.

Lemma filter_column (off : nat) (M : jacobian_t) (k : nat) :
  filter (fun t => t_outer ColMajor t = k) (triplets_of ColMajor off M)
  = map (fun e => {| t_row := off + fst e; t_col := k; t_value := snd e |})
        (inner_vector M k).
Proof.
  unfold triplets_of. rewrite filter_column_seq.
  destruct (decide _) as [| Hk]; [reflexivity |].
  unfold inner_vector, outerSize in *. rewrite lookup_ge_None_2 by lia. reflexivity.
Qed.

(** The entries of column [k] of the whole Jacobian before assembly are the
    stacked entries of that column. *)
Lemma filter_all_triplets (Js : list jacobian_t) (ss : list nat) (off k : nat) :
  map (fun t => (t_inner ColMajor t, t_value t))
      (filter (fun t => t_outer ColMajor t = k) (all_triplets ColMajor Js ss off))
  = map (fun c : nat * nat * Number => (fst (fst c), snd c)) (stacked_column Js ss off k).
Proof.
  revert ss off. induction Js as [| g Js IH]; intros [| s ss] off; simpl; try reflexivity.
  rewrite filter_app, !map_app, filter_column, IH, !map_map. reflexivity.
Qed.

(** ** The order of the structural query *)

Lemma inner_vector_well_formed (s n : nat) (g : jacobian_t) (k : nat) :
  well_formed s n g ->
  StronglySorted lt (map fst (inner_vector g k)) /\
  Forall (fun e : entry => (fst e < s)%nat) (inner_vector g k).
Proof.
  intros (_ & _ & _ & Hall). unfold inner_vector.
  destruct (outer g !! k) as [v |] eqn:E; simpl.
  - exact (proj1 (Forall_lookup _ _) Hall k v E).
  - split; constructor.
Qed.

Lemma stacked_column_col (Js : list jacobian_t) (ss : list nat) (off k : nat) :
  Forall (fun c : nat * nat * Number => snd (fst c) = k) (stacked_column Js ss off k).
Proof.
  revert ss off. induction Js as [| g Js IH]; intros [| s ss] off; simpl; try constructor.
  apply Forall_app. split; [| apply IH].
  apply Forall_forall. intros c Hc. apply list_elem_of_fmap in Hc.
  destruct Hc as (e & -> & _). reflexivity.
Qed.

Lemma sorted_shift (off : nat) (l : list entry) :
  StronglySorted lt (map fst l) ->
  StronglySorted lt (map (fun e : entry => (off + fst e)%nat) l).
Proof.
  induction l as [| e l IH]; simpl; intros H; [constructor |].
  apply StronglySorted_cons in H. destruct H as [Hall Hs].
  constructor; [exact (IH Hs) |].
  apply Forall_forall. intros r Hr. apply list_elem_of_fmap in Hr.
  destruct Hr as (e' & -> & He').
  assert (Hin : fst e' ∈ map fst l) by (apply list_elem_of_fmap; eauto).
  pose proof (proj1 (Forall_forall _ _) Hall _ Hin). simpl in *. lia.
Qed.

(** In a column of the stacked Jacobians the rows increase: within a
    constraint because its inner vector is increasing, from one constraint to
    the next because each one's rows lie below its output size. *)
Lemma stacked_column_rows (n : nat) (Js : list jacobian_t) (ss : list nat) (off k : nat) :
  Forall2 (fun g s => well_formed s n g) Js ss ->
  StronglySorted lt (map (fun c : nat * nat * Number => fst (fst c))
                         (stacked_column Js ss off k)) /\
  Forall (fun c : nat * nat * Number => (off <= fst (fst c))%nat) (stacked_column Js ss off k).
Proof.
  intros H. revert off. induction H as [| g s Js ss Hg _ IH]; intros off; simpl.
  - split; constructor.
  - destruct (inner_vector_well_formed s n g k Hg) as [Hsorted Hbelow].
    destruct (IH (off + s)%nat) as [IHs IHge].
    split.
    + rewrite map_app, map_map. simpl. apply StronglySorted_app_2.
      * intros r1 r2 H1 H2.
        apply list_elem_of_fmap in H1. destruct H1 as (e & -> & He).
        apply list_elem_of_fmap in H2. destruct H2 as (c & -> & Hc).
        pose proof (proj1 (Forall_forall _ _) Hbelow e He) as Hlt.
        pose proof (proj1 (Forall_forall _ _) IHge c Hc) as Hge.
        simpl in *. lia.
      * apply sorted_shift. exact Hsorted.
      * exact IHs.
    + apply Forall_app. split.
      * apply Forall_forall. intros c Hc. apply list_elem_of_fmap in Hc.
        destruct Hc as (e & -> & _). simpl. lia.
      * eapply Forall_impl; [exact IHge |]. simpl. intros c Hc. lia.
Qed.

Lemma map_flat_map {A B C} (f : B -> C) (g : A -> list B) (l : list A) :
  map f (flat_map g l) = flat_map (fun a => map f (g a)) l.
Proof. induction l as [| a l IH]; simpl; [reflexivity |]. rewrite map_app, IH. reflexivity. Qed.

Lemma emitted_setFromTriplets (r n : nat) (T : list triplet_t) :
  emitted ColMajor (setFromTriplets ColMajor r n T)
  = flat_map (fun k =>
                map (fun e : entry => (Z.of_nat (fst e), Z.of_nat k))
                    (assemble (map (fun t => (t_inner ColMajor t, t_value t))
                                   (filter (fun t => t_outer ColMajor t = k) T))))
             (seq 0 n).
Proof.
  unfold emitted, outerSize, setFromTriplets. simpl.
  rewrite length_map, length_seq. apply flat_map_seq_ext. intros k Hk.
  unfold inner_vector. simpl. rewrite list_lookup_fmap, lookup_seq_lt by lia.
  reflexivity.
Qed.

(** The structural query writes the coordinates of the stacked entries, in
    the order of the column-major copy. *)
Lemma emitted_stacked (r n : nat) (Js : list jacobian_t) (ss : list nat) :
  Forall2 (fun g s => well_formed s n g) Js ss ->
  emitted ColMajor (setFromTriplets ColMajor r n (all_triplets ColMajor Js ss 0))
  = map coordinate (stacked Js ss n).
Proof.
  intros Hwf. rewrite emitted_setFromTriplets. unfold stacked. rewrite map_flat_map.
  apply flat_map_seq_ext. intros k _.
  rewrite filter_all_triplets, assemble_sorted.
  - rewrite map_map. apply Forall_fmap_ext_1.
    eapply Forall_impl; [apply stacked_column_col |].
    intros [[r0 c0] v]. simpl. intros ->. reflexivity.
  - rewrite map_map. simpl. apply (stacked_column_rows n). exact Hwf.
Qed.

(** ** The numeric query *)

Lemma layout_scale (M : jacobian_t) (a : Number) : layout (scale M a) = layout M.
Proof.
  unfold layout, scale. simpl. f_equal. rewrite map_map. apply map_ext. intros v.
  rewrite map_map. reflexivity.
Qed.

Lemma layout_inner_vector (g g' : jacobian_t) (k : nat) :
  layout g = layout g' -> map fst (inner_vector g k) = map fst (inner_vector g' k).
Proof.
  unfold layout, inner_vector. intros [= _ _ H].
  assert (Hk : map (map fst) (outer g) !! k = map (map fst) (outer g') !! k)
    by (rewrite H; reflexivity).
  rewrite !list_lookup_fmap in Hk.
  destruct (outer g !! k), (outer g' !! k); cbn in *; congruence.
Qed.

Lemma layout_outer_length (g g' : jacobian_t) :
  layout g = layout g' -> length (outer g) = length (outer g').
Proof.
  unfold layout. intros [= _ _ H].
  rewrite <- (length_map (map fst) (outer g)), H, length_map. reflexivity.
Qed.

(** The coordinates of the stacked entries depend on the positions only. *)
Lemma stacked_column_layout (Js Js' : list jacobian_t) (ss : list nat) (off k : nat) :
  Forall2 (fun g g' => layout g = layout g') Js Js' ->
  map fst (stacked_column Js ss off k) = map fst (stacked_column Js' ss off k).
Proof.
  intros H. revert ss off. induction H as [| g g' Js Js' Hg _ IH]; intros [| s ss] off; simpl;
    try reflexivity.
  rewrite !map_app, IH, !map_map. simpl. f_equal.
  pose proof (layout_inner_vector g g' k Hg) as Hv.
  rewrite <- (map_map fst (fun r => (off + r, k)%nat)), Hv, map_map. reflexivity.
Qed.

Lemma stacked_layout (Js Js' : list jacobian_t) (ss : list nat) (n : nat) :
  Forall2 (fun g g' => layout g = layout g') Js Js' ->
  map coordinate (stacked Js ss n) = map coordinate (stacked Js' ss n).
Proof.
  intros H. unfold stacked. rewrite !map_flat_map. apply flat_map_seq_ext. intros k _.
  change coordinate with (fun c : nat * nat * Number =>
                            (Z.of_nat (fst (fst c)), Z.of_nat (snd (fst c)))).
  rewrite <- !(map_map fst (fun p : nat * nat => (Z.of_nat (fst p), Z.of_nat (snd p)))).
  rewrite (stacked_column_layout Js Js' ss 0 k H). reflexivity.
Qed.

(** The values of column [k], one stored Jacobian after the other. *)
Lemma stacked_column_values (Js : list jacobian_t) (ss : list nat) (off k : nat) :
  length Js = length ss ->
  map snd (stacked_column Js ss off k) = flat_map (fun g => map snd (inner_vector g k)) Js.
Proof.
  revert ss off. induction Js as [| g Js IH]; intros [| s ss] off; simpl; try discriminate;
    try reflexivity.
  intros [= Hlen]. rewrite map_app, map_map, IH by exact Hlen. reflexivity.
Qed.

Lemma refill_spec cs x id Js ev :
  length Js = (id + length cs)%nat ->
  exists Js' ev',
    refill cs x id Js ev = Done (Js', ev') /\
    length Js' = length Js /\
    (forall i, (i < id)%nat -> Js' !! i = Js !! i) /\
    (forall i c g, cs !! i = Some c -> Js !! (id + i)%nat = Some g ->
                   Js' !! (id + i)%nat = Some (jacobian_into (snd c) (scale g 0%float) x)).
Proof.
  revert id Js ev. induction cs as [| c cs IH]; intros id Js ev Hlen; simpl in *.
  - exists Js, ev. split; [reflexivity |]. split; [reflexivity |].
    split; [reflexivity |]. intros i c g H. discriminate H.
  - destruct (lookup_lt_is_Some_2 Js id ltac:(lia)) as [g Hg].
    unfold at_index. rewrite Hg. simpl.
    destruct (IH (S id) (<[id := jacobian_into (snd c) (scale g 0%float) x]> Js)
                 (ev ++ [EvalJacobian id x])) as (Js' & ev' & E & Hl & Hbefore & Hafter).
    { rewrite length_insert. lia. }
    exists Js', ev'. rewrite length_insert in Hl.
    split; [exact E |]. split; [exact Hl |]. split.
    + intros i Hi. rewrite Hbefore by lia. apply list_lookup_insert_ne. lia.
    + intros [| i] c' g' Hc Hg'; simpl in Hc.
      * injection Hc as <-. rewrite Nat.add_0_r in *. rewrite Hbefore by lia.
        rewrite Hg in Hg'. injection Hg' as <-.
        apply list_lookup_insert_eq. apply lookup_lt_Some in Hg. exact Hg.
      * replace (id + S i)%nat with (S id + i)%nat in * by lia.
        apply Hafter; [exact Hc |]. rewrite list_lookup_insert_ne by lia. exact Hg'.
Qed.

(** ** Copying the values out *)

Lemma copy_vector_spec (es : list (nat * Number)) (nele : Index) (idx : nat)
    (pre rest : list Number) :
  idx = length pre ->
  Z.of_nat (idx + length es) <= nele ->
  (length es <= length rest)%nat ->
  copy_vector es nele idx (pre ++ rest)
  = Done ((idx + length es)%nat, (pre ++ map snd es) ++ drop (length es) rest).
Proof.
  revert idx pre rest. induction es as [| e es IH]; intros idx pre rest -> Hn Hrest; simpl in *.
  - rewrite Nat.add_0_r, app_nil_r, drop_0. reflexivity.
  - destruct rest as [| r rest]; simpl in *; [lia |].
    assert (Hlt : (Z.of_nat (length pre) <? nele) = true) by (apply Z.ltb_lt; lia).
    rewrite Hlt. simpl. unfold store.
    destruct (decide _) as [_ | Hbad]; [| rewrite length_app in Hbad; simpl in Hbad; lia].
    simpl.
    replace (<[length pre := snd e]> (pre ++ r :: rest)) with ((pre ++ [snd e]) ++ rest).
    + rewrite (IH (S (length pre)) (pre ++ [snd e]) rest).
      * rewrite <- !app_assoc. simpl. f_equal. f_equal. lia.
      * rewrite length_app. simpl. lia.
      * lia.
      * lia.
    + rewrite insert_app_r_alt by lia. rewrite Nat.sub_diag. simpl.
      rewrite <- app_assoc. reflexivity.
Qed.

Lemma copy_outer_spec (Js : list jacobian_t) (k : nat) (nele : Index) (idx : nat)
    (pre rest : list Number) :
  Forall (fun g => (k < length (outer g))%nat) Js ->
  let V := flat_map (fun g => map snd (inner_vector g k)) Js in
  idx = length pre ->
  Z.of_nat (idx + length V) <= nele ->
  (length V <= length rest)%nat ->
  copy_outer Js k nele idx (pre ++ rest)
  = Done ((idx + length V)%nat, (pre ++ V) ++ drop (length V) rest).
Proof.
  intros HJs. revert idx pre rest.
  induction HJs as [| g Js Hg _ IH]; intros idx pre rest V Hidx Hn Hrest; subst V; simpl in *.
  - rewrite Nat.add_0_r, app_nil_r, drop_0. reflexivity.
  - rewrite length_app, length_map in *.
    destruct (lookup_lt_is_Some_2 (outer g) k Hg) as [es Hes].
    unfold at_index.
    assert (Hv : inner_vector g k = es) by (unfold inner_vector; rewrite Hes; reflexivity).
    rewrite Hes, Hv in *. simpl.
    rewrite (copy_vector_spec es nele idx pre rest Hidx) by lia. simpl.
    rewrite (IH (idx + length es)%nat (pre ++ map snd es) (drop (length es) rest)).
    + rewrite drop_drop, <- !app_assoc. f_equal. f_equal. lia.
    + rewrite length_app, length_map. lia.
    + lia.
    + rewrite length_drop. lia.
Qed.

Lemma copy_ColMajor_spec (Js : list jacobian_t) (todo k : nat) (nele : Index) (idx : nat)
    (pre rest : list Number) :
  Forall (fun g => (k + todo <= length (outer g))%nat) Js ->
  let V := flat_map (fun k' => flat_map (fun g => map snd (inner_vector g k')) Js)
                    (seq k todo) in
  idx = length pre ->
  Z.of_nat (idx + length V) <= nele ->
  (length V <= length rest)%nat ->
  copy_ColMajor Js todo k nele idx (pre ++ rest)
  = Done ((idx + length V)%nat, (pre ++ V) ++ drop (length V) rest).
Proof.
  revert k idx pre rest.
  induction todo as [| todo IH]; intros k idx pre rest HJs V Hidx Hn Hrest; subst V; simpl in *.
  - rewrite Nat.add_0_r, app_nil_r, drop_0. reflexivity.
  - rewrite length_app in *.
    rewrite (copy_outer_spec Js k nele idx pre rest); [| | exact Hidx | lia | lia].
    + simpl.
      rewrite (IH (S k) _ (pre ++ flat_map (fun g => map snd (inner_vector g k)) Js)
                  (drop (length (flat_map (fun g => map snd (inner_vector g k)) Js)) rest)).
      * rewrite drop_drop, <- !app_assoc. f_equal. f_equal. lia.
      * eapply Forall_impl; [exact HJs |]. simpl. intros g Hg. lia.
      * rewrite length_app. lia.
      * lia.
      * rewrite length_drop. lia.
    + eapply Forall_impl; [exact HJs |]. simpl. intros g Hg. lia.
Qed.

(** ** The frozen pattern *)

Section Frozen.
Variable pb : problem.
Hypothesis Hregular : regular pb.

Let n := inputSize (function pb).
Let cs := constraints pb.
Let Js0 := imap (structural_jacobian pb) cs.

Lemma regular_well_formed : Forall2 (fun g s => well_formed s n g) Js0 (sizes pb).
Proof.
  apply Forall2_same_length_lookup. split.
  - unfold Js0, sizes. rewrite length_imap, length_map. reflexivity.
  - intros i g s Hg Hs. unfold Js0, sizes, cs in *.
    rewrite list_lookup_imap in Hg. rewrite list_lookup_fmap in Hs.
    destruct (constraints pb !! i) as [c |] eqn:Hc; cbn in *; [| discriminate].
    simplify_eq. apply (proj1 (Hregular i c Hc)).
Qed.

Lemma frozen_refill (Js Js' : list jacobian_t) x ev ev' :
  frozen pb Js -> refill cs x 0 Js ev = Done (Js', ev') -> frozen pb Js'.
Proof.
  intros HJs E. unfold frozen, cs in *.
  pose proof (Forall2_length _ _ _ HJs) as Hlen.
  rewrite length_imap in Hlen.
  destruct (refill_spec (constraints pb) x 0 Js ev ltac:(simpl; lia))
    as (Js2 & ev2 & E2 & Hl & _ & Hat).
  rewrite E in E2. injection E2 as <- <-.
  apply Forall2_same_length_lookup. split.
  - rewrite Hl. apply (Forall2_length _ _ _ HJs).
  - intros i g' g0 Hg' Hg0.
    assert (Hi : (i < length Js)%nat) by (rewrite <- Hl; eapply lookup_lt_Some; exact Hg').
    destruct (lookup_lt_is_Some_2 Js i Hi) as [g Hg].
    destruct (lookup_lt_is_Some_2 (constraints pb) i ltac:(lia)) as [c Hc].
    pose proof (Hat i c g Hc Hg) as Hnew. simpl in Hnew. rewrite Hg' in Hnew.
    injection Hnew as ->.
    pose proof (Forall2_lookup_lr _ _ _ _ _ _ HJs Hg Hg0) as Hlay.
    rewrite list_lookup_imap, Hc in Hg0. cbn in Hg0.
    injection Hg0 as <-.
    apply (proj2 (Hregular i c Hc)). rewrite layout_scale. exact Hlay.
Qed.

Lemma numeric_refills so t n' x new_x m' nele iRow jCol values r out t' :
  eval_jac_g so pb t n' x new_x m' nele iRow jCol (Some values) = Done (r, out, t') ->
  exists ev',
    refill cs (take (Z.to_nat n') x) 0 (constraintJacobians_ t) (evals t)
    = Done (constraintJacobians_ t', ev').
Proof.
  unfold eval_jac_g.
  destruct (Z.of_nat (inputSize (function pb)) =? n'); [| discriminate].
  destruct (Z.of_nat (constraintsOutputSize pb) =? m'); [| discriminate].
  simpl. fold cs. destruct (refill cs _ 0 _ _) as [[Js' ev'] | |]; simpl; try discriminate.
  destruct so.
  - destruct (copy_ColMajor _ _ _ _ _ _) as [w | |]; simpl; try discriminate.
    intros [= _ _ <-]. simpl. eauto.
  - destruct (copy_RowMajor _ _ _ _) as [w | |]; simpl; try discriminate.
    intros [= _ _ <-]. simpl. eauto.
Qed.

Lemma frozen_after so t1 t :
  frozen pb (constraintJacobians_ t1) -> after_numeric so pb t1 t ->
  frozen pb (constraintJacobians_ t).
Proof.
  intros H1. induction 1 as [| t' t'' n' x new_x m' nele iRow jCol values out _ IH E];
    [exact H1 |].
  destruct (numeric_refills _ _ _ _ _ _ _ _ _ _ _ _ _ E) as [ev' Hr].
  exact (frozen_refill _ _ _ _ _ IH Hr).
Qed.


Lemma frozen_sizes (Js : list jacobian_t) :
  frozen pb Js ->
  length Js = length (sizes pb) /\ Forall (fun g => (0 + n <= length (outer g))%nat) Js.
Proof.
  intros HJs. split.
  - rewrite (Forall2_length _ _ _ HJs), length_imap. unfold sizes. rewrite length_map.
    reflexivity.
  - apply Forall_forall. intros g Hg. apply list_elem_of_lookup in Hg. destruct Hg as [i Hg].
    destruct (Forall2_lookup_l _ _ _ _ _ HJs Hg) as (g0 & Hg0 & Hlay).
    rewrite (layout_outer_length _ _ Hlay).
    pose proof regular_well_formed as Hwf. fold Js0 in Hg0.
    destruct (Forall2_lookup_l _ _ _ _ _ Hwf Hg0) as (s & _ & _ & _ & Hn & _).
    simpl. lia.
Qed.

Lemma stacked_values (Js : list jacobian_t) (ss : list nat) (k : nat) :
  length Js = length ss ->
  map snd (stacked Js ss k)
  = flat_map (fun k' => flat_map (fun g => map snd (inner_vector g k')) Js) (seq 0 k).
Proof.
  intros Hlen. unfold stacked. rewrite map_flat_map. apply flat_map_seq_ext. intros k' _.
  apply stacked_column_values. exact Hlen.
Qed.

(** What the first structural query stores and writes. *)
Lemma structure_spec (t0 t1 : Tnlp) x0 new_x0 nele iRow jCol iRow' jCol' :
  jacobian_ t0 = None -> constraintJacobians_ t0 = [] ->
  length iRow = Z.to_nat nele -> length jCol = Z.to_nat nele ->
  eval_jac_g ColMajor pb t0 (Z.of_nat n) x0 new_x0 (Z.of_nat (constraintsOutputSize pb))
             nele iRow jCol None
  = Done (true, Structure iRow' jCol', t1) ->
  let coords := map coordinate (stacked Js0 (sizes pb) n) in
  constraintJacobians_ t1 = Js0 /\
  (length coords <= Z.to_nat nele)%nat /\
  iRow' = map fst coords ++ replicate (Z.to_nat nele - length coords) 0 /\
  jCol' = map snd coords ++ replicate (Z.to_nat nele - length coords) 0.
Proof.
  intros Hnone Hempty HiRow HjCol. unfold eval_jac_g.
  rewrite !Z.eqb_refl, Hnone, Hempty. simpl. unfold memset0.
  destruct (decide _) as [_ |]; [| lia]. destruct (decide _) as [_ |]; [| lia]. simpl.
  destruct (collect pb ColMajor _ _ 0 0 [] [] _) as [r | |] eqn:Ec; simpl; try discriminate.
  apply collect_spec in Ec. simpl in Ec. destruct r as [[Js T] ev]. simpl in Ec.
  destruct Ec as (-> & -> & _).
  change (imap (fun i c => structural_jacobian pb i c) (constraints pb)) with Js0.
  change (map (fun c => outputSize (snd c)) (constraints pb)) with (sizes pb).
  rewrite (emitted_stacked _ n Js0 (sizes pb) regular_well_formed).
  unfold emit. rewrite !length_map.
  assert (Hz : forall p : list Index, length p = Z.to_nat nele ->
               length (copy_into (replicate (Z.to_nat nele) 0) p) = Z.to_nat nele
               /\ forall l : list Index, (length l <= Z.to_nat nele)%nat ->
                  copy_into l (copy_into (replicate (Z.to_nat nele) 0) p)
                  = l ++ replicate (Z.to_nat nele - length l) 0).
  { intros p Hp. unfold copy_into. rewrite length_replicate, <- Hp, drop_all, app_nil_r.
    rewrite length_replicate. split; [reflexivity |]. intros l Hl.
    rewrite drop_replicate. reflexivity. }
  destruct (Hz iRow HiRow) as [Hli Hci]. destruct (Hz jCol HjCol) as [Hlj Hcj].
  rewrite Hli, Hlj.
  destruct (decide _) as [Hk |]; simpl; [| discriminate].
  intros [= <- <- <-]. cbv zeta. simpl.
  split; [reflexivity |]. split; [exact Hk |].
  rewrite Hci, Hcj by (rewrite !length_map; exact Hk). rewrite ?length_map.
  split; reflexivity.
Qed.

(** A numeric query on stored Jacobians that keep the frozen positions. *)
Lemma numeric_spec (t : Tnlp) x new_x nele iRow jCol values :
  frozen pb (constraintJacobians_ t) ->
  let k := length (stacked Js0 (sizes pb) n) in
  0 <= nele -> (k <= Z.to_nat nele)%nat -> length values = Z.to_nat nele ->
  exists t',
    let written := stacked (constraintJacobians_ t') (sizes pb) n in
    eval_jac_g ColMajor pb t (Z.of_nat n) x new_x (Z.of_nat (constraintsOutputSize pb))
               nele iRow jCol (Some values)
    = Done (true, Values (map snd written ++ drop k values), t') /\
    map coordinate written = map coordinate (stacked Js0 (sizes pb) n).
Proof.
  intros HJs k Hnele Hk Hvalues.
  pose proof (Forall2_length _ _ _ HJs) as Hlen. rewrite length_imap in Hlen.
  destruct (refill_spec cs (take (Z.to_nat (Z.of_nat n)) x) 0 (constraintJacobians_ t)
                        (evals t) ltac:(simpl; exact Hlen)) as (Js' & ev' & E & _).
  pose proof (frozen_refill _ _ _ _ _ HJs E) as HJs'.
  destruct (frozen_sizes Js' HJs') as [Hss Hcols].
  pose proof (stacked_layout Js' Js0 (sizes pb) n HJs') as Hcoords.
  assert (Hk' : length (stacked Js' (sizes pb) n) = k).
  { unfold k. rewrite <- (length_map coordinate (stacked Js' _ _)), Hcoords, length_map.
    reflexivity. }
  unfold eval_jac_g. rewrite !Z.eqb_refl. simpl. fold cs. rewrite E. simpl.
  pose proof (copy_ColMajor_spec Js' n 0 nele 0 [] values Hcols) as Hcopy.
  simpl in Hcopy. rewrite <- (stacked_values Js' (sizes pb) n Hss) in Hcopy.
  rewrite length_map, Hk' in Hcopy.
  fold n. rewrite Hcopy by (try reflexivity; lia). simpl.
  lazymatch goal with
  | |- context [Done (true, Values _, ?T)] => exists T
  end.
  split; [reflexivity | exact Hcoords].
Qed.

(** C1, amended.  Take a regular problem: at the point of the structural
    query every constraint has a Jacobian of the declared size, and its
    evaluation into a stored matrix refills the entries in place.  Let the
    first structural query, asked of an adapter that has stored nothing yet
    with buffers of [nele_jac] entries, return.  It has written a list of k
    coordinates, padded with zeros.  Then every numeric query that follows
    with none but numeric queries in between, whatever the point and however
    many they are, returns having written exactly k values at the front of
    the engine's buffer, and the i-th value is the stored entry whose
    coordinate in the whole Jacobian is the i-th coordinate written by the
    structural query. *)
Theorem fill_order_equality (t0 t1 : Tnlp) (x0 : list Number) (new_x0 : bool)
    (nele_jac : Index) (iRow jCol iRow' jCol' : list Index) :
  jacobian_ t0 = None -> constraintJacobians_ t0 = [] ->
  0 <= nele_jac ->
  length iRow = Z.to_nat nele_jac -> length jCol = Z.to_nat nele_jac ->
  eval_jac_g ColMajor pb t0 (Z.of_nat (inputSize (function pb))) x0 new_x0
             (Z.of_nat (constraintsOutputSize pb)) nele_jac iRow jCol None
  = Done (true, Structure iRow' jCol', t1) ->
  exists coords : list (Index * Index),
    (length coords <= Z.to_nat nele_jac)%nat /\
    iRow' = map fst coords ++ replicate (Z.to_nat nele_jac - length coords) 0 /\
    jCol' = map snd coords ++ replicate (Z.to_nat nele_jac - length coords) 0 /\
    forall t, after_numeric ColMajor pb t1 t ->
    forall x new_x iR jC values, length values = Z.to_nat nele_jac ->
    exists t',
      let written :=
        stacked (constraintJacobians_ t') (sizes pb) (inputSize (function pb)) in
      eval_jac_g ColMajor pb t (Z.of_nat (inputSize (function pb))) x new_x
                 (Z.of_nat (constraintsOutputSize pb)) nele_jac iR jC (Some values)
      = Done (true, Values (map snd written ++ drop (length coords) values), t') /\
      map coordinate written = coords.
Proof.
  intros Hnone Hempty Hnele HiRow HjCol E.
  destruct (structure_spec _ _ _ _ _ _ _ _ _ Hnone Hempty HiRow HjCol E)
    as (HJs & Hk & Hi & Hj).
  exists (map coordinate (stacked Js0 (sizes pb) n)).
  split; [exact Hk |]. split; [exact Hi |]. split; [exact Hj |].
  intros t Hafter x new_x iR jC values Hvalues.
  assert (Hfrozen : frozen pb (constraintJacobians_ t)).
  { apply (frozen_after ColMajor t1 t); [| exact Hafter].
    rewrite HJs. unfold frozen. fold cs. fold Js0.
    apply Forall2_same_length_lookup. split; [reflexivity |].
    intros i g g' Hg Hg'. rewrite Hg in Hg'. injection Hg' as ->. reflexivity. }
  rewrite length_map in *.
  exact (numeric_spec t x new_x nele_jac iR jC values Hfrozen Hnele Hk Hvalues).
Qed.

End Frozen.

(** ** A regular problem *)

Lemma layout_imap_values (f : nat -> nat * Number -> Number) (l : list (list (nat * Number))) :
  map (map fst) (imap (fun k => map (fun e => (fst e, f k e))) l) = map (map fst) l.
Proof.
  revert f. induction l as [| v l IH]; intros f; [reflexivity |].
  rewrite imap_cons. simpl. rewrite map_map. simpl. f_equal.
  apply (IH (fun k => f (S k))).
Qed.

Lemma regular_pb_two : regular SparseExamples.pb_two.
Proof.
  intros id c Hc.
  destruct id as [| [| id]]; simpl in Hc; simplify_eq; split.
  - repeat split; repeat constructor.
  - intros jac x <-. unfold layout. simpl. f_equal. rewrite map_map. apply map_ext.
    intros v. rewrite map_map. reflexivity.
  - repeat split; repeat constructor.
  - intros jac x <-. unfold layout. simpl. f_equal.
    apply (layout_imap_values (fun k _ => (2 * nth k x 0)%float)).
Qed.

Lemma fill_order_equality_witness :
  exists coords : list (Z * Z),
    (length coords <= Z.to_nat 4)%nat /\
    [0; 1; 0; 1] = map fst coords ++ replicate (Z.to_nat 4 - length coords) 0 /\
    [0; 0; 1; 1] = map snd coords ++ replicate (Z.to_nat 4 - length coords) 0 /\
    forall t, after_numeric ColMajor SparseExamples.pb_two SparseExamples.structured t ->
    forall x new_x iR jC values, length values = Z.to_nat 4 ->
    exists t',
      let written :=
        stacked (constraintJacobians_ t') (sizes SparseExamples.pb_two)
                (inputSize (function SparseExamples.pb_two)) in
      eval_jac_g ColMajor SparseExamples.pb_two t
                 (Z.of_nat (inputSize (function SparseExamples.pb_two))) x new_x
                 (Z.of_nat (constraintsOutputSize SparseExamples.pb_two)) 4 iR jC (Some values)
      = Done (true, Values (map snd written ++ drop (length coords) values), t') /\
      map coordinate written = coords.
Proof.
  refine (fill_order_equality SparseExamples.pb_two regular_pb_two SparseExamples.fresh
            SparseExamples.structured [] true 4 [9; 9; 9; 9] [9; 9; 9; 9]
            [0; 1; 0; 1] [0; 0; 1; 1] eq_refl eq_refl _ eq_refl eq_refl eq_refl).
  lia.
Defined.

(** C1, as it stands, fails.  The adapter does not keep the positions
    frozen: it stores what the constraint's evaluation leaves.  For the
    constraint [x0 * x0] that builds its Jacobian anew, started at 1, the
    structural query writes one coordinate, [(0, 0)]; the numeric query at 0
    then returns without a value for it, the buffer as it was.  Started at 0,
    the structural query writes no coordinate, and the numeric query at 2
    stops on its assertion, with one value for no place. *)
Lemma fill_order_equality_counterexample :
  (exists t1,
     eval_jac_g ColMajor (SparseExamples.pb_rebuilt [1%float]) SparseExamples.fresh 1 [] true
                1 1 [9] [9] None
     = Done (true, Structure [0] [0], t1) /\
     (exists t2,
        eval_jac_g ColMajor (SparseExamples.pb_rebuilt [1%float]) t1 1 [0%float] true 1 1
                   [] [] (Some [9%float])
        = Done (true, Values [9%float], t2) /\
        stored_values ColMajor 1 (constraintJacobians_ t2) = []) /\
     ~ (forall x : list Number,
          exists t',
            let written :=
              stacked (constraintJacobians_ t') (sizes (SparseExamples.pb_rebuilt [1%float]))
                      1 in
            eval_jac_g ColMajor (SparseExamples.pb_rebuilt [1%float]) t1 1 x true 1 1 [] []
                       (Some [9%float])
            = Done (true, Values (map snd written ++ drop 1 [9%float]), t') /\
            map coordinate written = [(0, 0)])) /\
  (exists t1,
     eval_jac_g ColMajor (SparseExamples.pb_rebuilt [0%float]) SparseExamples.fresh 1 [] true
                1 0 [] [] None
     = Done (true, Structure [] [], t1) /\
     eval_jac_g ColMajor (SparseExamples.pb_rebuilt [0%float]) t1 1 [2%float] true 1 0 [] []
                (Some [])
     = AssertionFailed).
Proof.
  split.
  - eexists. split; [reflexivity |]. split.
    + eexists. split; reflexivity.
    + intros H. destruct (H [0%float]) as (t' & E & Hc).
      vm_compute in E. injection E as Hv <-. vm_compute in Hc. discriminate Hc.
  - eexists. split; reflexivity.
Qed.

(** ** The structural query asked again *)

(** Whether the loop over the constraints returns does not depend on what
    was stored or evaluated before. *)
Lemma collect_returns (pb : problem) (so : StorageOrder_t) n cs id idx Js Js' T T' ev ev' r :
  collect pb so n cs id idx Js T ev = Done r ->
  exists r', collect pb so n cs id idx Js' T' ev' = Done r'.
Proof.
  revert id idx Js Js' T T' ev ev'.
  induction cs as [| c cs IH]; intros id idx Js Js' T T' ev ev'; simpl.
  - intros _. eexists. reflexivity.
  - destruct (evaluation_point pb id n) as [x | |]; simpl; try discriminate.
    apply IH.
Qed.

(** X12.  The structural query asked a second time writes what it wrote the first
    time, but it evaluates every constraint's Jacobian once more and appends
    the Jacobians to those it had stored. *)
Lemma structure_again (so : StorageOrder_t) (pb : problem) (t0 t1 : Tnlp) x0 new_x0 x1 new_x1
    m nele iRow jCol iRow' jCol' :
  jacobian_ t0 = None ->
  eval_jac_g so pb t0 (Z.of_nat (inputSize (function pb))) x0 new_x0 m nele iRow jCol None
  = Done (true, Structure iRow' jCol', t1) ->
  exists t2,
    eval_jac_g so pb t1 (Z.of_nat (inputSize (function pb))) x1 new_x1 m nele iRow jCol None
    = Done (true, Structure iRow' jCol', t2) /\
    constraintJacobians_ t2
    = constraintJacobians_ t1 ++ imap (structural_jacobian pb) (constraints pb) /\
    jacobian_evaluations (evals t2)
    = (jacobian_evaluations (evals t1) + length (constraints pb))%nat.
Proof.
  intros Hnone. unfold eval_jac_g. rewrite Z.eqb_refl, Hnone.
  destruct (Z.of_nat (constraintsOutputSize pb) =? m); [| discriminate]. simpl.
  destruct (memset0 iRow nele) as [iRow0 | |]; simpl; try discriminate.
  destruct (memset0 jCol nele) as [jCol0 | |]; simpl; try discriminate.
  destruct (collect pb so _ _ 0 0 (constraintJacobians_ t0) [] (evals t0))
    as [[[Js T] ev] | |] eqn:E1; simpl; try discriminate.
  pose proof (collect_spec _ _ _ _ _ _ _ _ _ E1) as (_ & HT & _). simpl in HT.
  destruct (emit _ iRow0) as [iR | |] eqn:EiR; simpl; try discriminate.
  destruct (emit _ jCol0) as [jC | |] eqn:EjC; simpl; try discriminate.
  intros [= <- <- <-]. simpl.
  destruct (collect_returns pb so _ _ 0 0 _ Js [] [] _ ev _ E1) as [[[Js2 T2] ev2] E2].
  rewrite E2. simpl.
  pose proof (collect_spec _ _ _ _ _ _ _ _ _ E2) as (HJ2 & HT2 & Hev2). simpl in HJ2, HT2, Hev2.
  rewrite HT2, <- HT, EiR, EjC. simpl.
  eexists. split; [reflexivity |]. simpl. split; [exact HJ2 | exact Hev2].
Qed.

(** ** The number of non-zeros with a starting point *)

Lemma count_nonZeros_spec cs x id nnz ev :
  fst (count_nonZeros cs x id nnz ev)
  = nnz + Z.of_nat (sum_list (map (fun c => nonZeros (jacobian (snd c) x)) cs)).
Proof.
  revert id nnz ev. induction cs as [| c cs IH]; intros id nnz ev; simpl.
  - lia.
  - rewrite IH. lia.
Qed.








End SparseFacts.

(** * More on the dense adapter *)

Module DenseMore.
Import Dense.
Import DenseFacts.

(** ** Lists laid out block after block *)

Lemma lookup_concat {A} (l : list (list A)) (j : nat) (row : list A) (r : nat) :
  l !! j = Some row -> (r < length row)%nat ->
  concat l !! (length (concat (take j l)) + r)%nat = row !! r.
Proof.
  intros Hj Hr.
  assert (E : concat l = concat (take j l) ++ row ++ concat (drop (S j) l)).
  { rewrite <- (take_drop_middle l j row Hj) at 1. rewrite concat_app. reflexivity. }
  rewrite E. rewrite lookup_app_r by lia.
  replace (length (concat (take j l)) + r - length (concat (take j l)))%nat with r by lia.
  apply lookup_app_l. exact Hr.
Qed.

Lemma store_Done {A} (p : list A) (i : nat) (a : A) :
  (i < length p)%nat -> store p i a = Done (<[i := a]> p).
Proof. intros H. unfold store. destruct (decide _); [reflexivity | lia]. Qed.

Lemma store_OutOfBounds {A} (p : list A) (i : nat) (a : A) :
  (length p <= i)%nat -> store p i a = OutOfBounds.
Proof. intros H. unfold store. destruct (decide _); [lia | reflexivity]. Qed.

(** ** The bounds query *)

Lemma emit_bounds_spec (its : list (float * float)) (k : nat) (lo up : list float) :
  (k + length its <= length lo)%nat -> (k + length its <= length up)%nat ->
  emit_bounds its k lo up
  = Done (take k lo ++ map fst its ++ drop (k + length its) lo,
          take k up ++ map snd its ++ drop (k + length its) up).
Proof.
  revert k lo up. induction its as [| it its IH]; intros k lo up Hlo Hup; simpl in *.
  - rewrite Nat.add_0_r, !take_drop. reflexivity.
  - rewrite !store_Done by lia. simpl.
    rewrite IH by (rewrite length_insert; lia).
    rewrite (take_S_r (<[k := fst it]> lo) k (fst it)) by (apply list_lookup_insert_eq; lia).
    rewrite (take_S_r (<[k := snd it]> up) k (snd it)) by (apply list_lookup_insert_eq; lia).
    rewrite !take_insert_ge, !drop_insert_lt by lia.
    rewrite <- !app_assoc. simpl. repeat f_equal; lia.
Qed.

Lemma emit_bounds_short (its : list (float * float)) (k : nat) (lo up : list float) :
  (k <= length lo)%nat -> (k <= length up)%nat ->
  (length lo < k + length its \/ length up < k + length its)%nat ->
  emit_bounds its k lo up = OutOfBounds.
Proof.
  revert k lo up. induction its as [| it its IH]; intros k lo up Hlo Hup Hshort; simpl in *.
  - lia.
  - destruct (decide (k < length lo)%nat) as [Hk | Hk].
    2: { rewrite (store_OutOfBounds lo k) by lia. reflexivity. }
    rewrite (store_Done lo k) by exact Hk. simpl.
    destruct (decide (k < length up)%nat) as [Hk' | Hk'].
    2: { rewrite (store_OutOfBounds up k) by lia. reflexivity. }
    rewrite (store_Done up k) by exact Hk'. simpl.
    apply IH; rewrite ?length_insert; lia.
Qed.

(** X2.  The bounds query writes the variable bounds in declaration order and the
    constraint bounds constraint after constraint, component after component:
    bound [r] of constraint [j] lands after all the bounds of the constraints
    before it.  What follows the bounds in a buffer is left as it was, and a
    buffer shorter than the bounds is overrun. *)
Theorem get_bounds_info_flattens (pb : problem) (n : Index) (x_l x_u : list Number)
    (m : Index) (g_l g_u : list Number) :
  diff_is_zero 64 (Z.of_nat (inputSize (function pb))) n = true ->
  diff_is_zero 32 (constraintsOutputSize pb) m = true ->
  let xs := argumentBounds pb in
  let gs := concat (boundsVector pb) in
  ((length xs <= length x_l)%nat -> (length xs <= length x_u)%nat ->
   (length gs <= length g_l)%nat -> (length gs <= length g_u)%nat ->
   exists g_l' g_u',
     get_bounds_info pb n x_l x_u m g_l g_u
     = Done (true, (copy_into (map fst xs) x_l, copy_into (map snd xs) x_u), (g_l', g_u')) /\
     g_l' = copy_into (map fst gs) g_l /\ g_u' = copy_into (map snd gs) g_u /\
     forall j its r b,
       boundsVector pb !! j = Some its -> its !! r = Some b ->
       let i := (length (concat (take j (boundsVector pb))) + r)%nat in
       g_l' !! i = Some (fst b) /\ g_u' !! i = Some (snd b))
  /\
  ((length x_l < length xs \/ length x_u < length xs \/
    length g_l < length gs \/ length g_u < length gs)%nat ->
   get_bounds_info pb n x_l x_u m g_l g_u = OutOfBounds).
Proof.
  intros Hn Hm xs gs. subst xs gs. unfold get_bounds_info. rewrite Hn, Hm. simpl.
  split.
  - intros Hxl Hxu Hgl Hgu.
    rewrite !emit_bounds_spec by (simpl; lia). simpl.
    unfold copy_into. rewrite !length_map.
    eexists _, _. split; [reflexivity |].
    split; [reflexivity |]. split; [reflexivity |].
    intros j its r b Hj Hb. cbv zeta.
    pose proof (lookup_lt_Some _ _ _ Hb) as Hr.
    pose proof (lookup_concat _ _ _ _ Hj Hr) as Hc. rewrite Hb in Hc.
    pose proof (lookup_lt_Some _ _ _ Hc) as Hi.
    rewrite !lookup_app_l by (rewrite length_map; exact Hi).
    rewrite !list_lookup_fmap, Hc. split; reflexivity.
  - intros Hshort.
    destruct (decide (length (argumentBounds pb) <= length x_l /\
                      length (argumentBounds pb) <= length x_u)%nat) as [[Hxl Hxu] | Hx].
    + rewrite (emit_bounds_spec (argumentBounds pb)) by (simpl; lia). simpl.
      rewrite (emit_bounds_short (concat (boundsVector pb)) 0 g_l g_u); [reflexivity | lia | lia |].
      simpl. destruct Hshort as [H | [H | [H | H]]]; [lia | lia | left; exact H | right; exact H].
    + rewrite (emit_bounds_short (argumentBounds pb) 0 x_l x_u); [reflexivity | lia | lia |].
      simpl. lia.
Qed.

Lemma get_bounds_info_flattens_witness :
  exists g_l' g_u',
    get_bounds_info DenseExamples.pb_scales 1 [9%float] [9%float] 3
                    [9%float; 9%float; 9%float; 9%float] [9%float; 9%float; 9%float]
    = Done (true, ([0%float], [1%float]), (g_l', g_u')) /\
    g_l' = [0%float; 0%float; 0%float; 9%float] /\ g_u' = [1%float; 1%float; 1%float].
Proof.
  destruct (proj1 (get_bounds_info_flattens DenseExamples.pb_scales 1 [9%float] [9%float] 3
                     [9%float; 9%float; 9%float; 9%float] [9%float; 9%float; 9%float]
                     eq_refl eq_refl)
                  ltac:(simpl; lia) ltac:(simpl; lia) ltac:(simpl; lia) ltac:(simpl; lia))
    as (g_l' & g_u' & E & Hl & Hu & _).
  exists g_l', g_u'. split; [exact E |]. split; [exact Hl | exact Hu].
Defined.

(** ** The linearity queries *)

Lemma length_concat_replicate {A B} (size : A -> nat) (v : A -> B) (l : list A) :
  length (concat (map (fun a => replicate (size a) (v a)) l)) = sum_list (map size l).
Proof.
  induction l as [| a l IH]; simpl; [reflexivity |].
  rewrite length_app, length_replicate, IH. reflexivity.
Qed.

(** X4.  Every variable is reported non-linear; every output of a constraint is
    reported with the linearity of its constraint, the outputs of constraint
    [j] coming after all the outputs of the constraints before it, so that
    exactly as many types are written as the constraints have outputs. *)
Theorem linearity_per_output (pb : problem) (n m : Index) :
  diff_is_zero 64 (Z.of_nat (inputSize (function pb))) n = true ->
  diff_is_zero 32 (constraintsOutputSize pb) m = true ->
  (exists var_types,
     get_variables_linearity pb n = Done (true, var_types) /\
     length var_types = Z.to_nat n /\
     forall i, (i < Z.to_nat n)%nat -> var_types !! i = Some TNLP_NON_LINEAR)
  /\
  (exists const_types,
     get_function_linearity pb m = Done (true, const_types) /\
     length const_types = sum_list (output_sizes pb) /\
     forall j c r,
       constraints pb !! j = Some c -> (r < outputSize (snd c))%nat ->
       const_types !! (sum_list (take j (output_sizes pb)) + r)%nat
       = Some (match fst c with LINEAR => TNLP_LINEAR | NONLINEAR => TNLP_NON_LINEAR end)).
Proof.
  intros Hn Hm. split.
  - unfold get_variables_linearity. rewrite Hn. simpl. eexists. split; [reflexivity |].
    split; [apply length_replicate |]. intros i Hi. apply lookup_replicate_2. exact Hi.
  - unfold get_function_linearity. rewrite Hm. simpl. eexists. split; [reflexivity |].
    rewrite flat_map_concat_map. unfold output_sizes.
    split; [apply length_concat_replicate |].
    intros j c r Hc Hr.
    set (f := fun c : which_t * DifferentiableFunction =>
                replicate (outputSize (snd c))
                  match fst c with LINEAR => TNLP_LINEAR | NONLINEAR => TNLP_NON_LINEAR end).
    assert (Hj : map f (constraints pb) !! j = Some (f c))
      by (rewrite list_lookup_fmap, Hc; reflexivity).
    assert (Hoff : length (concat (take j (map f (constraints pb))))
                   = sum_list (take j (map (fun c => outputSize (snd c)) (constraints pb)))).
    { rewrite <- !fmap_take. apply length_concat_replicate. }
    rewrite <- Hoff, (lookup_concat _ _ _ _ Hj) by (unfold f; rewrite length_replicate; exact Hr).
    unfold f. apply lookup_replicate_2. exact Hr.
Qed.

Lemma linearity_per_output_witness :
  (exists var_types,
     get_variables_linearity DenseExamples.pb_scales 1 = Done (true, var_types) /\
     length var_types = Z.to_nat 1 /\
     forall i, (i < Z.to_nat 1)%nat -> var_types !! i = Some TNLP_NON_LINEAR)
  /\
  (exists const_types,
     get_function_linearity DenseExamples.pb_scales 3 = Done (true, const_types) /\
     length const_types = sum_list (output_sizes DenseExamples.pb_scales) /\
     forall j c r,
       constraints DenseExamples.pb_scales !! j = Some c -> (r < outputSize (snd c))%nat ->
       const_types !! (sum_list (take j (output_sizes DenseExamples.pb_scales)) + r)%nat
       = Some (match fst c with LINEAR => TNLP_LINEAR | NONLINEAR => TNLP_NON_LINEAR end)).
Proof. exact (linearity_per_output DenseExamples.pb_scales 1 3 eq_refl eq_refl). Defined.

(** ** The sizes reported to the engine *)

Lemma constraintsOutputSize_mod (cs : list (which_t * DifferentiableFunction)) (r : Z) :
  0 <= r < 2 ^ 32 ->
  fold_left (fun result c => unsigned_wrap (result + Z.of_nat (outputSize (snd c)))) cs r
  = (r + Z.of_nat (sum_list (map (fun c => outputSize (snd c)) cs))) mod 2 ^ 32.
Proof.
  revert r. induction cs as [| c cs IH]; intros r Hr; simpl.
  - rewrite Z.add_0_r, Z.mod_small by exact Hr. reflexivity.
  - rewrite IH by (apply Z.mod_pos_bound; reflexivity).
    unfold unsigned_wrap. rewrite Zplus_mod_idemp_l. f_equal. lia.
Qed.

Lemma to_Index_spec (z : Z) :
  - 2 ^ 31 <= to_Index z < 2 ^ 31 /\ (to_Index z - z) mod 2 ^ 32 = 0.
Proof.
  unfold to_Index. change (2 ^ 32) with 4294967296. change (2 ^ 31) with 2147483648.
  pose proof (Z.mod_pos_bound z 4294967296 ltac:(lia)) as Hw.
  pose proof (Z.div_mod z 4294967296 ltac:(lia)) as Hz.
  set (w := z mod 4294967296) in *. set (q := z / 4294967296) in *.
  cbv zeta. destruct (w <? 2147483648) eqn:E.
  - apply Z.ltb_lt in E. split; [lia |].
    replace (w - z) with ((- q) * 4294967296) by lia. apply Z_mod_mult.
  - apply Z.ltb_ge in E. split; [lia |].
    replace (w - 4294967296 - z) with ((- q - 1) * 4294967296) by lia. apply Z_mod_mult.
Qed.

(** X1.  What [get_nlp_info] reports as n and m are the number of variables and
    the total number of constraint outputs brought into the range of an
    [Index]: congruent to them modulo [2 ^ 32], equal to them below
    [2 ^ 31], and negative for a total from [2 ^ 31] up to [2 ^ 32]; the
    total is accumulated modulo [2 ^ 32].  The number of entries of the dense
    block it announces is the product of the n and m reported, brought into
    the range of an [Index] in the same way: it is n times m when that is
    below [2 ^ 31].  Likewise the number of entries of the Hessian is
    n (n + 1) / 2 when n (n + 1) is below [2 ^ 31]. *)
Theorem get_nlp_info_sizes (pb : problem) :
  let info := snd (get_nlp_info pb) in
  let inputs := Z.of_nat (inputSize (function pb)) in
  let outputs := Z.of_nat (sum_list (output_sizes pb)) in
  constraintsOutputSize pb = outputs mod 2 ^ 32 /\
  (- 2 ^ 31 <= info_n info < 2 ^ 31 /\ (info_n info - inputs) mod 2 ^ 32 = 0) /\
  (- 2 ^ 31 <= info_m info < 2 ^ 31 /\ (info_m info - outputs) mod 2 ^ 32 = 0) /\
  (inputs < 2 ^ 31 -> info_n info = inputs) /\
  (outputs < 2 ^ 31 -> info_m info = outputs) /\
  (2 ^ 31 <= outputs < 2 ^ 32 -> info_m info = outputs - 2 ^ 32) /\
  (- 2 ^ 31 <= info_nnz_jac_g info < 2 ^ 31 /\
   (info_nnz_jac_g info - info_n info * info_m info) mod 2 ^ 32 = 0) /\
  (inputs < 2 ^ 31 -> outputs < 2 ^ 31 -> inputs * outputs < 2 ^ 31 ->
   info_nnz_jac_g info = inputs * outputs) /\
  (inputs < 2 ^ 31 -> inputs * (inputs + 1) < 2 ^ 31 ->
   info_nnz_h_lag info = inputs * (inputs + 1) / 2).
Proof.
  intros info inputs outputs. subst info. cbn [snd get_nlp_info info_n info_m info_nnz_jac_g
                                                  info_nnz_h_lag].
  assert (Hcos : constraintsOutputSize pb = outputs mod 2 ^ 32).
  { unfold constraintsOutputSize. rewrite constraintsOutputSize_mod by (split; [lia | reflexivity]).
    reflexivity. }
  assert (Hm : to_Index (constraintsOutputSize pb) = to_Index outputs).
  { rewrite Hcos. unfold to_Index. rewrite Z.mod_mod by discriminate. reflexivity. }
  rewrite Hm. fold inputs.
  split; [exact Hcos |]. split; [apply to_Index_spec |]. split; [apply to_Index_spec |].
  split; [intros H; apply to_Index_small; subst inputs; lia |].
  split; [intros H; apply to_Index_small; subst outputs; lia |].
  split.
  { intros [Hlo Hhi]. unfold to_Index. rewrite Z.mod_small by (subst outputs; lia).
    destruct (outputs <? 2 ^ 31) eqn:E; [apply Z.ltb_lt in E; lia | reflexivity]. }
  split; [apply to_Index_spec |].
  split.
  - intros Hi Ho Hp.
    rewrite (to_Index_small inputs), (to_Index_small outputs) by (subst inputs outputs; lia).
    apply to_Index_small. subst inputs outputs. lia.
  - intros Hi Hp.
    assert (Hone : inputs + 1 < 2 ^ 31 \/ inputs * (inputs + 1) = 0) by (subst inputs; nia).
    rewrite (to_Index_small inputs) by (subst inputs; lia).
    destruct Hone as [Hone | Hzero].
    + rewrite (to_Index_small (inputs + 1)) by (subst inputs; lia).
      rewrite (to_Index_small (inputs * (inputs + 1))) by (subst inputs; lia).
      apply Z.quot_div_nonneg; subst inputs; lia.
    + assert (inputs = 0) by (subst inputs; nia). rewrite H. reflexivity.
Qed.

(** ** The dense structure *)

Lemma dense_structure_spec (m n : Z) :
  0 <= m -> 0 <= n ->
  length (dense_structure m n) = Z.to_nat (m * n) /\
  forall k, (k < Z.to_nat (m * n))%nat ->
            dense_structure m n !! k = Some (Z.of_nat k / n, Z.of_nat k mod n).
Proof.
  intros Hm Hn. unfold dense_structure.
  set (f := fun i : nat => map (fun j : nat => (Z.of_nat i, Z.of_nat j)) (seq 0 (Z.to_nat n))).
  assert (Hf : forall k, length (f k) = Z.to_nat n)
    by (intros k; unfold f; rewrite length_map, length_seq; reflexivity).
  split.
  - rewrite (length_blocks f _ _ _ Hf). rewrite Z2Nat.inj_mul by lia. reflexivity.
  - intros k Hk. rewrite Z2Nat.inj_mul in Hk by lia.
    assert (Hpos : (0 < Z.to_nat n)%nat) by (destruct (Z.to_nat n); lia).
    pose proof (Nat.div_mod_eq k (Z.to_nat n)) as Hdm.
    pose proof (Nat.mod_upper_bound k (Z.to_nat n) ltac:(lia)) as Hmod.
    assert (Hdiv : (k / Z.to_nat n < Z.to_nat m)%nat).
    { apply Nat.Div0.div_lt_upper_bound. lia. }
    rewrite Hdm at 1. rewrite (Nat.mul_comm (Z.to_nat n)).
    rewrite (lookup_blocks f _ _ _ _ _ Hf Hdiv Hmod). unfold f.
    rewrite list_lookup_fmap, lookup_seq_lt by exact Hmod. simpl.
    rewrite Nat2Z.inj_div, Nat2Z.inj_mod, Z2Nat.id by lia. reflexivity.
Qed.

(** X7.  Asked for the structure, the dense adapter evaluates nothing and
    announces the full block, row after row: the k-th coordinate is row
    [k / n], column [k mod n], for every k below m times n. *)
Theorem dense_structure_row_by_row (so : StorageOrder_t) (pb : problem) (t : Tnlp)
    (n m : Index) (x : list Number) (new_x : bool) (iRow jCol : list Index) :
  diff_is_zero 64 (Z.of_nat (inputSize (function pb))) n = true ->
  diff_is_zero 64 (Z.of_nat (length (constraints pb))) m = true ->
  0 <= m -> 0 <= n ->
  length iRow = Z.to_nat (m * n) -> length jCol = Z.to_nat (m * n) ->
  exists iRow' jCol',
    eval_jac_g so pb t n x new_x m iRow jCol None = Done (true, Structure iRow' jCol', t) /\
    length iRow' = Z.to_nat (m * n) /\ length jCol' = Z.to_nat (m * n) /\
    forall k, (k < Z.to_nat (m * n))%nat ->
              iRow' !! k = Some (Z.of_nat k / n) /\ jCol' !! k = Some (Z.of_nat k mod n).
Proof.
  intros Hn Hm Hm0 Hn0 HiRow HjCol.
  destruct (dense_structure_spec m n Hm0 Hn0) as [Hlen Hat].
  unfold eval_jac_g. rewrite Hn, Hm. simpl.
  destruct (decide _) as [_ | Hbad]; [| exfalso; apply Hbad; lia].
  assert (Hcopy : forall (l p : list Z), length l = length p -> copy_into l p = l).
  { intros l p Hl. unfold copy_into. rewrite Hl, drop_all. apply app_nil_r. }
  rewrite !Hcopy by (rewrite length_map; lia).
  eexists _, _. split; [reflexivity |]. rewrite !length_map.
  split; [exact Hlen |]. split; [exact Hlen |].
  intros k Hk. rewrite !list_lookup_fmap, (Hat k Hk). split; reflexivity.
Qed.

Lemma dense_structure_row_by_row_witness :
  exists iRow' jCol',
    eval_jac_g RowMajor DenseExamples.pb_scales DenseExamples.empty_Tnlp 1 [] true 2
               [9; 9] [9; 9] None
    = Done (true, Structure iRow' jCol', DenseExamples.empty_Tnlp) /\
    length iRow' = Z.to_nat (2 * 1) /\ length jCol' = Z.to_nat (2 * 1) /\
    forall k, (k < Z.to_nat (2 * 1))%nat ->
              iRow' !! k = Some (Z.of_nat k / 1) /\ jCol' !! k = Some (Z.of_nat k mod 1).
Proof.
  refine (dense_structure_row_by_row RowMajor DenseExamples.pb_scales DenseExamples.empty_Tnlp
            1 2 [] true [9; 9] [9; 9] eq_refl eq_refl _ _ eq_refl eq_refl); lia.
Defined.

(** ** The order of the values *)

(** X6.  When [eval_jac_g] returns the values, its buffer has m rows and n
    columns, and the structure asked of the adapter it leaves announces at
    every k below m times n the coordinate [(k / n, k mod n)], X7.  In a
    row-major build the k-th value is the coefficient of the buffer at that
    coordinate.  In a column-major build the values come column after
    column: the k-th value is the coefficient at [(k mod m, k / m)]. *)
Theorem dense_values_order (so : StorageOrder_t) (pb : problem) (t t' : Tnlp) (n m : Index)
    (x : list Number) (new_x : bool) (iRow jCol : list Index) (values : list Number)
    (r : bool) (out : jac_output) :
  length iRow = Z.to_nat (m * n) -> length jCol = Z.to_nat (m * n) ->
  eval_jac_g so pb t n x new_x m iRow jCol (Some values) = Done (r, out, t') ->
  exists values' iRow' jCol',
    out = Values values' /\
    eval_jac_g so pb t' n x false m iRow jCol None = Done (true, Structure iRow' jCol', t') /\
    length (jacobian_ t') = Z.to_nat m /\
    Forall (fun row => length row = Z.to_nat n) (jacobian_ t') /\
    forall k, (k < Z.to_nat m * Z.to_nat n)%nat ->
      iRow' !! k = Some (Z.of_nat k / n) /\ jCol' !! k = Some (Z.of_nat k mod n) /\
      is_Some (values' !! k) /\
      values' !! k
      = match so with
        | RowMajor =>
            jacobian_ t' !! (k / Z.to_nat n)%nat ≫= (fun row => row !! (k mod Z.to_nat n)%nat)
        | ColMajor =>
            jacobian_ t' !! (k mod Z.to_nat m)%nat ≫= (fun row => row !! (k / Z.to_nat m)%nat)
        end.
Proof.
  intros HiRow HjCol. unfold eval_jac_g.
  destruct (diff_is_zero 64 (Z.of_nat (inputSize (function pb))) n) eqn:Hn; [| discriminate].
  destruct (diff_is_zero 64 (Z.of_nat (length (constraints pb))) m) eqn:Hm; [| discriminate].
  simpl.
  assert (Hend : forall t0 : Tnlp,
             (assign_map so values m n (jacobian_ t0) ≫= fun values' =>
                Done (true, Values values', t0)) = Done (r, out, t') ->
             exists values',
               out = Values values' /\ t' = t0 /\
               (0 <= m /\ 0 <= n /\ length (jacobian_ t0) = Z.to_nat m /\
                Forall (fun row => length row = Z.to_nat n) (jacobian_ t0)) /\
               holds so (Z.to_nat m) (Z.to_nat n) (jacobian_ t0) values values').
  { intros t0. destruct (assign_map so values m n (jacobian_ t0)) as [p | |] eqn:Ea; simpl;
      try discriminate.
    intros [= <- <- <-]. apply assign_map_Done in Ea. exists p. tauto. }
  intros H.
  assert (Hres : exists values',
             out = Values values' /\
             (0 <= m /\ 0 <= n /\ length (jacobian_ t') = Z.to_nat m /\
              Forall (fun row => length row = Z.to_nat n) (jacobian_ t')) /\
             holds so (Z.to_nat m) (Z.to_nat n) (jacobian_ t') values values').
  { destruct new_x.
    - destruct (fill_blocks _ _ _ _ _ _ _ _ _) as [rb | |]; simpl in H; try discriminate.
      apply Hend in H. destruct H as (v & Hv & -> & Hd & Hh). exists v. auto.
    - apply Hend in H. destruct H as (v & Hv & -> & Hd & Hh). exists v. auto. }
  clear H Hend. destruct Hres as (values' & -> & (Hm0 & Hn0 & Hrows & Hcols) & Hl & Hat & _).
  destruct (dense_structure_spec m n Hm0 Hn0) as [Hlen Hs].
  destruct (decide _) as [_ | Hbad]; [| exfalso; apply Hbad; lia].
  assert (Hcopy : forall (l p : list Z), length l = length p -> copy_into l p = l).
  { intros l p Hlp. unfold copy_into. rewrite Hlp, drop_all. apply app_nil_r. }
  rewrite !Hcopy by (rewrite length_map; lia).
  eexists values', _, _. split; [reflexivity |]. split; [reflexivity |].
  split; [exact Hrows |]. split; [exact Hcols |].
  intros k Hk.
  assert (Hk' : (k < Z.to_nat (m * n))%nat) by (rewrite Z2Nat.inj_mul by lia; exact Hk).
  rewrite !list_lookup_fmap, (Hs k Hk'). split; [reflexivity |]. split; [reflexivity |].
  assert (Hnpos : (0 < Z.to_nat n)%nat) by (destruct (Z.to_nat n); lia).
  assert (Hmpos : (0 < Z.to_nat m)%nat) by (destruct (Z.to_nat m); lia).
  assert (Hentry : forall i j, (i < Z.to_nat m)%nat -> (j < Z.to_nat n)%nat ->
             exists row a, jacobian_ t' !! i = Some row /\ row !! j = Some a).
  { intros i j Hi Hj.
    destruct (lookup_lt_is_Some_2 (jacobian_ t') i ltac:(lia)) as [row Hrow].
    pose proof (proj1 (Forall_lookup _ _) Hcols i row Hrow) as Hw. simpl in Hw.
    destruct (lookup_lt_is_Some_2 row j ltac:(lia)) as [a Ha]. eauto. }
  destruct so.
  - pose proof (Nat.div_mod_eq k (Z.to_nat m)) as Hdm.
    pose proof (Nat.mod_upper_bound k (Z.to_nat m) ltac:(lia)) as Hmod.
    assert (Hdiv : (k / Z.to_nat m < Z.to_nat n)%nat)
      by (apply Nat.Div0.div_lt_upper_bound; lia).
    destruct (Hentry _ _ Hmod Hdiv) as (row & a & Hrow & Ha).
    pose proof (Hat _ _ row a Hrow Ha) as Hv. simpl in Hv.
    replace (k / Z.to_nat m * Z.to_nat m + k mod Z.to_nat m)%nat with k in Hv by lia.
    rewrite Hv, Hrow. simpl. split; [eexists; reflexivity | symmetry; exact Ha].
  - pose proof (Nat.div_mod_eq k (Z.to_nat n)) as Hdm.
    pose proof (Nat.mod_upper_bound k (Z.to_nat n) ltac:(lia)) as Hmod.
    assert (Hdiv : (k / Z.to_nat n < Z.to_nat m)%nat)
      by (apply Nat.Div0.div_lt_upper_bound; lia).
    destruct (Hentry _ _ Hdiv Hmod) as (row & a & Hrow & Ha).
    pose proof (Hat _ _ row a Hrow Ha) as Hv. simpl in Hv.
    replace (k / Z.to_nat n * Z.to_nat n + k mod Z.to_nat n)%nat with k in Hv by lia.
    rewrite Hv, Hrow. simpl. split; [eexists; reflexivity | symmetry; exact Ha].
Qed.

Lemma dense_values_order_witness :
  exists t' iRow' jCol',
    eval_jac_g ColMajor DenseExamples.pb_square (DenseExamples.built 2 2) 2
               [5%float; 1%float] true 2 [9; 9; 9; 9] [9; 9; 9; 9]
               (Some [7%float; 7%float; 7%float; 7%float; 7%float])
    = Done (true, Values [1%float; 3%float; 2%float; 4%float; 7%float], t') /\
    jacobian_ t' = [[1%float; 2%float]; [3%float; 4%float]] /\
    eval_jac_g ColMajor DenseExamples.pb_square t' 2 [5%float; 1%float] false 2
               [9; 9; 9; 9] [9; 9; 9; 9] None
    = Done (true, Structure iRow' jCol', t') /\
    iRow' !! 1%nat = Some 0 /\ jCol' !! 1%nat = Some 1.
Proof.
  eexists _.
  destruct (dense_values_order ColMajor DenseExamples.pb_square (DenseExamples.built 2 2) _
              2 2 [5%float; 1%float] true [9; 9; 9; 9] [9; 9; 9; 9]
              [7%float; 7%float; 7%float; 7%float; 7%float] _ _ eq_refl eq_refl eq_refl)
    as (values' & iRow' & jCol' & _ & Es & _ & _ & Hk).
  exists iRow', jCol'. split; [reflexivity |]. split; [reflexivity |].
  split; [exact Es |].
  destruct (Hk 1%nat ltac:(simpl; lia)) as (Hi & Hj & _). split; [exact Hi | exact Hj].
Defined.

(** ** The constraint values and the engine's buffer *)

(** X17.  [eval_g] hands its buffer of m rows and n columns over through a
    map of m times n entries of the engine's buffer, which has m entries:
    for a problem with a constraint and more than one variable it does not
    return, with or without a new point, in either storage order. *)
Theorem eval_g_one_variable (so : StorageOrder_t) (pb : problem) (t : Tnlp) (n m : Index)
    (x : list Number) (new_x : bool) (g : list Number) :
  diff_is_zero 64 (Z.of_nat (inputSize (function pb))) n = true ->
  diff_is_zero 64 (Z.of_nat (length (constraints pb))) m = true ->
  length g = Z.to_nat m -> 0 < m -> 1 < n ->
  eval_g so pb t n x new_x m g = OutOfBounds.
Proof.
  intros Hn Hm Hg Hm0 Hn1. unfold eval_g. rewrite Hn, Hm. simpl.
  assert (Hmap : forall M, assign_map so g m n M = OutOfBounds).
  { intros M. unfold assign_map.
    destruct (decide _) as [(_ & _ & Hrows & Hcols & Hlen) |]; [| reflexivity].
    rewrite (length_coefficients so _ M Hcols), Hrows, Hg in Hlen. nia. }
  destruct new_x; simpl.
  - pose proof (fill_blocks_no_assert (fun f => as_column (call f (map_vector x n)))
                  (fun _ => 1%nat) (fun id => EvalConstraint id (map_vector x n))
                  (constraints pb) (Z.to_nat n) 0 0 (constraints_ t) (evals t)) as Hf.
    destruct (fill_blocks _ _ _ _ _ _ _ _ _) as [r | |]; simpl; try congruence.
    rewrite Hmap. reflexivity.
  - rewrite Hmap. reflexivity.
Qed.

Lemma eval_g_one_variable_witness :
  eval_g RowMajor DenseExamples.pb_square (DenseExamples.built 2 2) 2 [5%float; 1%float] false 2
         [7%float; 7%float]
  = OutOfBounds.
Proof.
  apply (eval_g_one_variable RowMajor DenseExamples.pb_square (DenseExamples.built 2 2));
    [reflexivity | reflexivity | reflexivity | lia | lia].
Defined.

(** ** The scaling query, constraint by constraint *)

Lemma scaling_row_spec (row : list float) (i : nat) (g : list float) :
  (i < length g)%nat ->
  scaling_row row i g = Done (match last row with Some s => <[i := s]> g | None => g end).
Proof.
  revert g. induction row as [| s row IH]; intros g Hi; simpl; [reflexivity |].
  rewrite store_Done by exact Hi. simpl. rewrite IH by (rewrite length_insert; exact Hi).
  destruct row as [| s' row]; [reflexivity |].
  rewrite last_cons_cons. destruct (last (s' :: row)) as [s'' |] eqn:E.
  - rewrite list_insert_insert_eq. reflexivity.
  - apply last_None in E. discriminate E.
Qed.

Lemma scaling_loop_spec (sv : list (list float)) (todo i : nat) (g : list float) :
  (i + todo <= length sv)%nat -> (i + todo <= length g)%nat ->
  exists g',
    scaling_loop sv todo i g = Done g' /\ length g' = length g /\
    (forall j row, (i <= j < i + todo)%nat -> sv !! j = Some row ->
                   g' !! j = match last row with Some s => Some s | None => g !! j end) /\
    (forall j, (j < i \/ i + todo <= j)%nat -> g' !! j = g !! j).
Proof.
  revert i g. induction todo as [| todo IH]; intros i g Hsv Hg; simpl.
  - exists g. split; [reflexivity |]. split; [reflexivity |].
    split; [intros; lia | intros; reflexivity].
  - destruct (lookup_lt_is_Some_2 sv i ltac:(lia)) as [row Hrow].
    unfold at_index. rewrite Hrow. simpl. rewrite scaling_row_spec by lia. simpl.
    set (g1 := match last row with Some s => <[i := s]> g | None => g end).
    assert (Hlen1 : length g1 = length g)
      by (unfold g1; destruct (last row); rewrite ?length_insert; reflexivity).
    destruct (IH (S i) g1 ltac:(lia) ltac:(lia)) as (g' & E & Hlen & Hin & Hout).
    exists g'. split; [exact E |]. split; [lia |]. split.
    + intros j row' Hj Hrow'. destruct (decide (j = i)) as [-> | Hne].
      * rewrite Hout by lia. rewrite Hrow in Hrow'. injection Hrow' as <-.
        unfold g1. destruct (last row); [| reflexivity].
        apply list_lookup_insert_eq. lia.
      * rewrite (Hin j row' ltac:(lia) Hrow').
        destruct (last row'); [reflexivity |].
        unfold g1. destruct (last row); [| reflexivity].
        apply list_lookup_insert_ne. lia.
    + intros j Hj. rewrite Hout by lia.
      unfold g1. destruct (last row); [| reflexivity].
      apply list_lookup_insert_ne. lia.
Qed.

Lemma scaling_loop_short (sv : list (list float)) (todo i : nat) (g : list float) :
  (i <= length sv)%nat -> (length sv < i + todo)%nat -> (i + todo <= length g)%nat ->
  scaling_loop sv todo i g = OutOfBounds.
Proof.
  revert i g. induction todo as [| todo IH]; intros i g Hi Hsv Hg; simpl; [lia |].
  unfold at_index. destruct (sv !! i) as [row |] eqn:Hrow; [| reflexivity]. simpl.
  apply lookup_lt_Some in Hrow.
  rewrite scaling_row_spec by lia. simpl.
  apply IH; [lia | lia |].
  destruct (last row); rewrite ?length_insert; lia.
Qed.

(** X3.  The scaling query hands the variable scales over in declaration order.
    For the constraints it walks the first m constraints and leaves at index
    [i] the last scale of constraint [i] (nothing for a constraint without
    scales): the scales are not flattened.  Asked for more scales than there
    are constraints, it reads past the last constraint. *)
Theorem scaling_by_constraint (pb : problem) (n : Index) (x_sc : list Number) (m : Index)
    (g_sc : list Number) :
  Z.of_nat (length (argumentScales pb)) = n ->
  length x_sc = length (argumentScales pb) ->
  (Z.to_nat m <= length g_sc)%nat ->
  ((Z.to_nat m <= length (scalesVector pb))%nat ->
   exists sc,
     get_scaling_parameters pb n x_sc m g_sc = Done (true, sc) /\
     use_x_scaling sc = true /\ use_g_scaling sc = true /\
     x_scaling sc = argumentScales pb /\
     length (g_scaling sc) = length g_sc /\
     (forall i row, (i < Z.to_nat m)%nat -> scalesVector pb !! i = Some row ->
                    g_scaling sc !! i
                    = match last row with Some s => Some s | None => g_sc !! i end) /\
     (forall i, (Z.to_nat m <= i)%nat -> g_scaling sc !! i = g_sc !! i))
  /\
  ((length (scalesVector pb) < Z.to_nat m)%nat ->
   get_scaling_parameters pb n x_sc m g_sc = OutOfBounds).
Proof.
  intros Hn Hx Hg. unfold get_scaling_parameters. rewrite Hn, Z.eqb_refl. simpl.
  split.
  - intros Hsv.
    destruct (scaling_loop_spec (scalesVector pb) (Z.to_nat m) 0 g_sc ltac:(simpl; lia)
                ltac:(simpl; lia)) as (g' & E & Hlen & Hin & Hout).
    rewrite E. simpl. eexists. split; [reflexivity |]. simpl.
    split; [reflexivity |]. split; [reflexivity |].
    split; [unfold copy_into; rewrite <- Hx, drop_all; apply app_nil_r |].
    split; [exact Hlen |]. split.
    + intros i row Hi Hrow. apply Hin; [lia | exact Hrow].
    + intros i Hi. apply Hout. lia.
  - intros Hsv. rewrite scaling_loop_short by (simpl; lia). reflexivity.
Qed.

Lemma scaling_by_constraint_witness :
  exists sc,
    get_scaling_parameters DenseExamples.pb_scales 1 [9%float] 2 [9%float; 9%float; 9%float]
    = Done (true, sc) /\
    g_scaling sc !! 0%nat = Some 3%float /\ g_scaling sc !! 1%nat = Some 5%float /\
    g_scaling sc !! 2%nat = Some 9%float.
Proof.
  destruct (proj1 (scaling_by_constraint DenseExamples.pb_scales 1 [9%float] 2
                     [9%float; 9%float; 9%float] eq_refl eq_refl ltac:(simpl; lia))
                  ltac:(simpl; lia))
    as (sc & E & _ & _ & _ & _ & Hin & Hout).
  exists sc. split; [exact E |].
  split; [exact (Hin 0%nat _ ltac:(simpl; lia) eq_refl) |].
  split; [exact (Hin 1%nat _ ltac:(simpl; lia) eq_refl) |].
  exact (Hout 2%nat ltac:(simpl; lia)).
Defined.

(** ** The bound multipliers *)

(** X5.  Asked to initialise the bound multipliers, [get_starting_point] sets the
    first n entries of both buffers to one, whether or not there is a
    starting point, and overruns a buffer of fewer than n entries; not asked,
    it leaves them as they are.  It never evaluates a function, and it fails
    only for a missing starting point that it is asked to supply. *)
Theorem get_starting_point_multipliers (pb : problem) (t : Tnlp) (n : Index) (init_x : bool)
    (x : list Number) (init_z : bool) (z_L z_U : list Number) (m : Index) :
  diff_is_zero 64 (Z.of_nat (inputSize (function pb))) n = true ->
  diff_is_zero 32 (constraintsOutputSize pb) m = true ->
  let r := get_starting_point pb t n init_x x init_z z_L z_U m false in
  let one := replicate (Z.to_nat n) 1%float in
  (init_z = true -> (Z.to_nat n <= length z_L)%nat -> (Z.to_nat n <= length z_U)%nat ->
   exists sp t',
     r = Done (negb (init_x && negb (bool_decide (is_Some (startingPoint pb)))), sp, t') /\
     sp_z_L sp = one ++ drop (Z.to_nat n) z_L /\ sp_z_U sp = one ++ drop (Z.to_nat n) z_U /\
     evals t' = evals t)
  /\
  (init_z = true -> (length z_L < Z.to_nat n \/ length z_U < Z.to_nat n)%nat ->
   r = OutOfBounds)
  /\
  (init_z = false ->
   exists sp t',
     r = Done (negb (init_x && negb (bool_decide (is_Some (startingPoint pb)))), sp, t') /\
     sp_z_L sp = z_L /\ sp_z_U sp = z_U /\ evals t' = evals t).
Proof.
  intros Hn Hm r one. subst r one. unfold get_starting_point. rewrite Hn, Hm. simpl.
  split; [| split].
  - intros -> HL HU. unfold ones. destruct (decide _) as [_ | Hbad]; [| lia]. simpl.
    unfold copy_into. rewrite length_replicate.
    destruct (startingPoint pb), init_x; simpl; eexists _, _; repeat split.
  - intros -> Hshort. unfold ones. destruct (decide _) as [Hok | _]; [lia | reflexivity].
  - intros ->. simpl.
    destruct (startingPoint pb), init_x; simpl; eexists _, _; repeat split.
Qed.

Lemma get_starting_point_multipliers_witness :
  exists sp t',
    get_starting_point (DenseExamples.pb_one (Some [3%float])) DenseExamples.empty_Tnlp 1 true
                       [9%float] true [9%float; 9%float] [9%float] 1 false
    = Done (true, sp, t') /\
    sp_z_L sp = [1%float; 9%float] /\ sp_z_U sp = [1%float] /\
    evals t' = evals DenseExamples.empty_Tnlp.
Proof.
  exact (proj1 (get_starting_point_multipliers (DenseExamples.pb_one (Some [3%float]))
                  DenseExamples.empty_Tnlp 1 true [9%float] true [9%float; 9%float]
                  [9%float] 1 eq_refl eq_refl)
               eq_refl ltac:(simpl; lia) ltac:(simpl; lia)).
Defined.

End DenseMore.

(** * More on the sparse adapter *)

Module SparseMore.
Import Sparse.
Import SparseFacts.

(** ** The structural query asked again, and with a starting point *)

Lemma structure_again_witness :
  exists t2,
    eval_jac_g ColMajor SparseExamples.pb_two SparseExamples.structured
               (Z.of_nat (inputSize (function SparseExamples.pb_two))) [] false 2 4
               [9; 9; 9; 9] [9; 9; 9; 9] None
    = Done (true, Structure [0; 1; 0; 1] [0; 0; 1; 1], t2) /\
    constraintJacobians_ t2
    = constraintJacobians_ SparseExamples.structured
      ++ imap (structural_jacobian SparseExamples.pb_two) (constraints SparseExamples.pb_two) /\
    jacobian_evaluations (evals t2)
    = (jacobian_evaluations (evals SparseExamples.structured)
       + length (constraints SparseExamples.pb_two))%nat.
Proof.
  exact (structure_again ColMajor SparseExamples.pb_two SparseExamples.fresh
           SparseExamples.structured [] true [] false 2 4 [9; 9; 9; 9] [9; 9; 9; 9]
           [0; 1; 0; 1] [0; 0; 1; 1] eq_refl eq_refl).
Defined.


(** ** The point built from the bounds *)

Lemma from_bounds_spec (bv : list (list (float * float))) (id : nat)
    (its : list (float * float)) (todo i : nat) :
  bv !! id = Some its -> (i + todo <= length its)%nat ->
  from_bounds bv id todo i = Done (map pick (take todo (drop i its))).
Proof.
  intros Hid. revert i. induction todo as [| todo IH]; intros i Hlen; simpl; [reflexivity |].
  unfold at_index. rewrite Hid. simpl.
  destruct (lookup_lt_is_Some_2 its i ltac:(lia)) as [b Hb]. rewrite Hb. simpl.
  rewrite IH by lia. simpl.
  rewrite (drop_S its b i Hb). reflexivity.
Qed.

Lemma from_bounds_short (bv : list (list (float * float))) (id todo i : nat) :
  (forall its, bv !! id = Some its -> (length its < i + todo)%nat) -> (0 < todo)%nat ->
  from_bounds bv id todo i = OutOfBounds.
Proof.
  intros Hshort. revert i Hshort. induction todo as [| todo IH]; intros i Hshort Hpos; [lia |].
  simpl. unfold at_index. destruct (bv !! id) as [its |] eqn:Hid; [| reflexivity]. simpl.
  destruct (its !! i) as [b |] eqn:Hb; [| reflexivity]. simpl.
  apply lookup_lt_Some in Hb. specialize (Hshort its eq_refl).
  rewrite IH; [reflexivity | | lia].
  intros its' [= <-]. lia.
Qed.

(** X10.  Without a starting point the structural query builds the point at which
    it evaluates constraint [id] from the intervals of that constraint,
    component [i] from interval [i]: it needs the constraint to have at
    least n intervals, takes the first n, and reads past the end when the
    constraint has fewer (or no list of intervals at all). *)
Theorem evaluation_point_from_bounds (pb : problem) (id : nat) (n : Index) :
  startingPoint pb = None ->
  (forall its, boundsVector pb !! id = Some its -> (Z.to_nat n <= length its)%nat ->
               evaluation_point pb id n = Done (map pick (take (Z.to_nat n) its)))
  /\
  (0 < n ->
   (forall its, boundsVector pb !! id = Some its -> (length its < Z.to_nat n)%nat) ->
   evaluation_point pb id n = OutOfBounds).
Proof.
  intros Hnone. unfold evaluation_point. rewrite Hnone. split.
  - intros its Hid Hlen. rewrite (from_bounds_spec _ _ its) by (simpl; auto). reflexivity.
  - intros Hn Hshort. apply from_bounds_short; [simpl; exact Hshort | lia].
Qed.

Lemma evaluation_point_from_bounds_witness :
  evaluation_point (SparseExamples.pb_interval (1%float, PrimFloat.infinity)) 0 1
  = Done [1%float].
Proof.
  exact (proj1 (evaluation_point_from_bounds
                  (SparseExamples.pb_interval (1%float, PrimFloat.infinity)) 0 1 eq_refl)
               [(1%float, PrimFloat.infinity)] eq_refl ltac:(simpl; lia)).
Defined.

(** ** The numeric query and what is stored *)

Lemma refill_short cs x id Js ev :
  (id <= length Js < id + length cs)%nat -> refill cs x id Js ev = OutOfBounds.
Proof.
  revert id Js ev. induction cs as [| c cs IH]; intros id Js ev Hlen; simpl in *; [lia |].
  unfold at_index. destruct (Js !! id) as [g |] eqn:Hg; simpl; [| reflexivity].
  apply lookup_lt_Some in Hg. apply IH. rewrite length_insert. lia.
Qed.

Lemma refill_done cs x id Js ev Js' ev' :
  refill cs x id Js ev = Done (Js', ev') ->
  length Js' = length Js /\
  (id <= length Js -> id + length cs <= length Js)%nat /\
  (forall i, (i < id \/ id + length cs <= i)%nat -> Js' !! i = Js !! i) /\
  ev' = ev ++ imap (fun i _ => EvalJacobian (id + i) x) cs.
Proof.
  revert id Js ev. induction cs as [| c cs IH]; intros id Js ev; simpl.
  - intros [= <- <-]. rewrite app_nil_r. repeat split; try reflexivity. lia.
  - unfold at_index. destruct (Js !! id) as [g |] eqn:Hg; simpl; [| discriminate].
    intros H. apply IH in H. destruct H as (Hl & Hle & Hout & Hev).
    rewrite length_insert in Hl, Hle. apply lookup_lt_Some in Hg.
    split; [exact Hl |]. split; [lia |]. split.
    + intros i Hi. rewrite Hout by lia. apply list_lookup_insert_ne. lia.
    + rewrite Hev, <- app_assoc. simpl. rewrite Nat.add_0_r. f_equal. f_equal.
      apply imap_ext. intros i c' _. simpl. f_equal. lia.
Qed.

(** Writes stay below [nele_jac] and inside the buffer. *)
Lemma same_beyond_refl nele v : same_beyond nele v v.
Proof. split; reflexivity. Qed.

Lemma same_beyond_trans nele v1 v2 v3 :
  same_beyond nele v1 v2 -> same_beyond nele v2 v3 -> same_beyond nele v1 v3.
Proof.
  intros [H1 H1'] [H2 H2']. split; [congruence |].
  intros i Hi. rewrite H2', H1' by exact Hi. reflexivity.
Qed.

Lemma copy_vector_done es nele idx values r :
  copy_vector es nele idx values = Done r -> same_beyond nele values (snd r).
Proof.
  revert idx values. induction es as [| e es IH]; intros idx values; simpl.
  - intros [= <-]. apply same_beyond_refl.
  - destruct (Z.of_nat idx <? nele) eqn:Hlt; simpl; [| discriminate].
    apply Z.ltb_lt in Hlt. unfold store.
    destruct (decide _) as [Hin |]; simpl; [| discriminate].
    intros H. apply IH in H. eapply same_beyond_trans; [| exact H].
    split; [apply length_insert |].
    intros i Hi. apply list_lookup_insert_ne. lia.
Qed.

Lemma copy_outer_done Js k nele idx values r :
  copy_outer Js k nele idx values = Done r -> same_beyond nele values (snd r).
Proof.
  revert idx values. induction Js as [| g Js IH]; intros idx values; simpl.
  - intros [= <-]. apply same_beyond_refl.
  - destruct (at_index (outer g) k) as [es | |]; simpl; try discriminate.
    destruct (copy_vector es nele idx values) as [w | |] eqn:E; simpl; try discriminate.
    intros H. apply IH in H. apply copy_vector_done in E.
    eapply same_beyond_trans; eassumption.
Qed.

Lemma copy_ColMajor_done Js todo k nele idx values r :
  copy_ColMajor Js todo k nele idx values = Done r -> same_beyond nele values (snd r).
Proof.
  revert k idx values. induction todo as [| todo IH]; intros k idx values; simpl.
  - intros [= <-]. apply same_beyond_refl.
  - destruct (copy_outer Js k nele idx values) as [w | |] eqn:E; simpl; try discriminate.
    intros H. apply IH in H. apply copy_outer_done in E.
    eapply same_beyond_trans; eassumption.
Qed.

Lemma copy_RowMajor_done Js nele idx values r :
  copy_RowMajor Js nele idx values = Done r -> same_beyond nele values (snd r).
Proof.
  revert idx values. induction Js as [| g Js IH]; intros idx values; simpl.
  - intros [= <-]. apply same_beyond_refl.
  - destruct (copy_vector _ nele idx values) as [w | |] eqn:E; simpl; try discriminate.
    intros H. apply IH in H. apply copy_vector_done in E.
    eapply same_beyond_trans; eassumption.
Qed.

(** X13.  The numeric query reads one stored Jacobian per constraint: asked while
    fewer are stored, as before any structural query on a problem that has
    constraints, it reads past the end of the stored ones, in either storage
    order. *)
Theorem numeric_before_structure (so : StorageOrder_t) (pb : problem) (t : Tnlp)
    (n m nele_jac : Index) (x : list Number) (new_x : bool) (iRow jCol : list Index)
    (values : list Number) :
  Z.of_nat (inputSize (function pb)) = n ->
  Z.of_nat (constraintsOutputSize pb) = m ->
  (length (constraintJacobians_ t) < length (constraints pb))%nat ->
  eval_jac_g so pb t n x new_x m nele_jac iRow jCol (Some values) = OutOfBounds.
Proof.
  intros <- <- Hlen. unfold eval_jac_g. rewrite !Z.eqb_refl. simpl.
  rewrite refill_short by (simpl; lia). reflexivity.
Qed.

Lemma numeric_before_structure_witness :
  eval_jac_g RowMajor SparseExamples.pb_two SparseExamples.fresh 2 [1%float; 1%float] true 2 4
             [] [] (Some [0%float; 0%float; 0%float; 0%float])
  = OutOfBounds.
Proof.
  apply (numeric_before_structure RowMajor SparseExamples.pb_two SparseExamples.fresh);
    [reflexivity | reflexivity | simpl; lia].
Defined.

(** X14.  A numeric query that returns, in either storage order, has evaluated
    every constraint's Jacobian once, at the first n components of the
    engine's point whatever [new_x] says, into the stored Jacobian of the
    same rank; it has stored no Jacobian more and left those beyond the
    constraints as they were; and in the engine's buffer it has changed no
    entry from [nele_jac] on, nor the length. *)
Theorem numeric_bookkeeping (so : StorageOrder_t) (pb : problem) (t t' : Tnlp)
    (n m nele_jac : Index) (x : list Number) (new_x : bool) (iRow jCol : list Index)
    (values : list Number) (r : bool) (out : jac_output) :
  eval_jac_g so pb t n x new_x m nele_jac iRow jCol (Some values) = Done (r, out, t') ->
  r = true /\
  (exists values',
     out = Values values' /\ length values' = length values /\
     forall i, nele_jac <= Z.of_nat i -> values' !! i = values !! i) /\
  evals t' = evals t ++ imap (fun id _ => EvalJacobian id (take (Z.to_nat n) x)) (constraints pb)
  /\
  length (constraintJacobians_ t') = length (constraintJacobians_ t) /\
  (length (constraints pb) <= length (constraintJacobians_ t))%nat /\
  (forall i, (length (constraints pb) <= i)%nat ->
             constraintJacobians_ t' !! i = constraintJacobians_ t !! i).
Proof.
  unfold eval_jac_g.
  destruct (Z.of_nat (inputSize (function pb)) =? n); [| discriminate].
  destruct (Z.of_nat (constraintsOutputSize pb) =? m); [| discriminate]. simpl.
  destruct (refill _ _ 0 _ _) as [[Js ev] | |] eqn:Er; simpl; try discriminate.
  apply refill_done in Er. destruct Er as (Hl & Hle & Hout & Hev). simpl in *.
  assert (Hw : forall w : run (nat * list Number),
             (forall r0, w = Done r0 -> same_beyond nele_jac values (snd r0)) ->
             (w ≫= fun w0 =>
                Done (true, Values (snd w0),
                      {| jacobian_ := Some match jacobian_ t with
                                           | Some G => G
                                           | None => {| rows := constraintsOutputSize pb;
                                                        cols := inputSize (function pb);
                                                        outer := replicate
                                                          (match so with
                                                           | ColMajor => inputSize (function pb)
                                                           | RowMajor => constraintsOutputSize pb
                                                           end) [] |}
                                           end;
                         constraintJacobians_ := Js; evals := ev |}))
             = Done (r, out, t') ->
             r = true /\
             (exists values',
                out = Values values' /\ length values' = length values /\
                forall i, nele_jac <= Z.of_nat i -> values' !! i = values !! i) /\
             evals t' = ev /\ constraintJacobians_ t' = Js).
  { intros [w | |] Hsame; simpl; try discriminate.
    intros [= <- <- <-]. destruct (Hsame w eq_refl) as [H1 H2].
    split; [reflexivity |]. split; [eexists; split; [reflexivity | split; assumption] |].
    split; reflexivity. }
  intros H.
  assert (Hres : r = true /\
             (exists values',
                out = Values values' /\ length values' = length values /\
                forall i, nele_jac <= Z.of_nat i -> values' !! i = values !! i) /\
             evals t' = ev /\ constraintJacobians_ t' = Js).
  { destruct so.
    - apply (Hw (copy_ColMajor Js (inputSize (function pb)) 0 nele_jac 0 values));
        [intros r0; apply copy_ColMajor_done | exact H].
    - apply (Hw (copy_RowMajor Js nele_jac 0 values));
        [intros r0; apply copy_RowMajor_done | exact H]. }
  destruct Hres as (Hr & Hv & Hev' & HJs').
  split; [exact Hr |]. split; [exact Hv |]. rewrite Hev', HJs'.
  split; [exact Hev |]. split; [exact Hl |]. split; [apply Hle; lia |].
  intros i Hi. apply Hout. right. simpl. exact Hi.
Qed.

Lemma numeric_bookkeeping_witness :
  exists t',
    eval_jac_g ColMajor SparseExamples.pb_two SparseExamples.structured 2
               [1%float; 1%float; 7%float] false 2 4 [] []
               (Some [0%float; 0%float; 0%float; 0%float; 9%float])
    = Done (true, Values [1%float; 2%float; 1%float; 2%float; 9%float], t') /\
    evals t' = evals SparseExamples.structured
               ++ [EvalJacobian 0 [1%float; 1%float]; EvalJacobian 1 [1%float; 1%float]] /\
    length (constraintJacobians_ t') = 2%nat.
Proof.
  eexists. split; [reflexivity |].
  destruct (numeric_bookkeeping ColMajor SparseExamples.pb_two SparseExamples.structured _ 2 2 4
              [1%float; 1%float; 7%float] false [] []
              [0%float; 0%float; 0%float; 0%float; 9%float] _ _ eq_refl)
    as (_ & _ & Hev & Hl & _).
  split; [exact Hev | exact Hl].
Defined.

(** ** The coordinates of the structure *)

Lemma constraintsOutputSize_sizes (pb : problem) :
  constraintsOutputSize pb = sum_list (sizes pb).
Proof.
  unfold constraintsOutputSize, sizes. induction (constraints pb) as [| c cs IH]; simpl;
    [reflexivity | rewrite IH; reflexivity].
Qed.

Lemma stacked_column_below (n : nat) (Js : list jacobian_t) (ss : list nat) (off k : nat) :
  Forall2 (fun g s => well_formed s n g) Js ss ->
  Forall (fun c : nat * nat * Number => (fst (fst c) < off + sum_list ss)%nat)
         (stacked_column Js ss off k).
Proof.
  intros H. revert off. induction H as [| g s Js ss Hg _ IH]; intros off; simpl.
  - constructor.
  - destruct (inner_vector_well_formed s n g k Hg) as [_ Hbelow].
    apply Forall_app. split.
    + apply Forall_forall. intros c Hc. apply list_elem_of_fmap in Hc.
      destruct Hc as (e & -> & He). simpl.
      pose proof (proj1 (Forall_forall _ _) Hbelow e He). simpl in *. lia.
    + eapply Forall_impl; [apply IH |]. simpl. intros c Hc. lia.
Qed.

(** Entries in column-major order: by column, and by row within a column. *)
Lemma stacked_order (n : nat) (Js : list jacobian_t) (ss : list nat) (a todo : nat) :
  Forall2 (fun g s => well_formed s n g) Js ss ->
  StronglySorted (fun c d : nat * nat * Number =>
                    (snd (fst c) < snd (fst d) \/
                     snd (fst c) = snd (fst d) /\ fst (fst c) < fst (fst d))%nat)
                 (flat_map (stacked_column Js ss 0) (seq a todo)) /\
  Forall (fun c : nat * nat * Number => (a <= snd (fst c) < a + todo)%nat)
         (flat_map (stacked_column Js ss 0) (seq a todo)).
Proof.
  intros Hwf. revert a. induction todo as [| todo IH]; intros a; simpl.
  - split; constructor.
  - destruct (IH (S a)) as [IHs IHc].
    pose proof (stacked_column_col Js ss 0 a) as Hcol.
    destruct (stacked_column_rows n Js ss 0 a Hwf) as [Hrows _].
    split.
    + apply StronglySorted_app_2; [| | exact IHs].
      * intros c d Hc Hd. left.
        pose proof (proj1 (Forall_forall _ _) Hcol c Hc) as Hc'.
        pose proof (proj1 (Forall_forall _ _) IHc d Hd) as Hd'. simpl in *. lia.
      * revert Hcol Hrows. generalize (stacked_column Js ss 0 a). intros l.
        induction l as [| c l IHl]; intros Hcol Hrows; [constructor |].
        apply Forall_cons in Hcol. destruct Hcol as [Hc Hcol].
        simpl in Hrows. apply StronglySorted_cons in Hrows. destruct Hrows as [Hlt Hrows].
        constructor; [exact (IHl Hcol Hrows) |].
        apply Forall_forall. intros d Hd. right.
        pose proof (proj1 (Forall_forall _ _) Hcol d Hd) as Hd'.
        assert (Hin : fst (fst d) ∈ map (fun c0 : nat * nat * Number => fst (fst c0)) l)
          by (apply list_elem_of_fmap; exists d; split; [reflexivity | exact Hd]).
        pose proof (proj1 (Forall_forall _ _) Hlt _ Hin). simpl in *. lia.
    + apply Forall_app. split.
      * eapply Forall_impl; [exact Hcol |]. simpl. intros c ->. lia.
      * eapply Forall_impl; [exact IHc |]. simpl. intros c Hc. lia.
Qed.

Lemma stacked_below (n : nat) (Js : list jacobian_t) (ss : list nat) (k : nat) :
  Forall2 (fun g s => well_formed s n g) Js ss ->
  Forall (fun c : nat * nat * Number => (fst (fst c) < sum_list ss)%nat) (stacked Js ss k).
Proof.
  intros Hwf. unfold stacked. induction (seq 0 k) as [| a l IH]; simpl; [constructor |].
  apply Forall_app. split; [| exact IH].
  exact (stacked_column_below n Js ss 0 a Hwf).
Qed.

(** X11.  The first structural query of a regular problem hands the engine
    coordinates that index the whole Jacobian: rows from 0 below m, columns
    from 0 below n (the C style announced by [get_nlp_info]); they come
    column after column and by increasing row within a column, so that no
    coordinate is written twice. *)
Theorem structure_column_major (pb : problem) (t0 t1 : Tnlp) (x0 : list Number)
    (new_x0 : bool) (nele_jac : Index) (iRow jCol iRow' jCol' : list Index) :
  regular pb ->
  jacobian_ t0 = None -> constraintJacobians_ t0 = [] ->
  length iRow = Z.to_nat nele_jac -> length jCol = Z.to_nat nele_jac ->
  eval_jac_g ColMajor pb t0 (Z.of_nat (inputSize (function pb))) x0 new_x0
             (Z.of_nat (constraintsOutputSize pb)) nele_jac iRow jCol None
  = Done (true, Structure iRow' jCol', t1) ->
  exists coords : list (Index * Index),
    iRow' = map fst coords ++ replicate (Z.to_nat nele_jac - length coords) 0 /\
    jCol' = map snd coords ++ replicate (Z.to_nat nele_jac - length coords) 0 /\
    Forall (fun p => 0 <= fst p < Z.of_nat (constraintsOutputSize pb) /\
                     0 <= snd p < Z.of_nat (inputSize (function pb))) coords /\
    StronglySorted (fun p q => snd p < snd q \/ snd p = snd q /\ fst p < fst q) coords /\
    NoDup coords.
Proof.
  intros Hreg Hnone Hempty HiRow HjCol E.
  destruct (structure_spec pb Hreg _ _ _ _ _ _ _ _ _ Hnone Hempty HiRow HjCol E)
    as (_ & _ & Hi & Hj).
  pose proof (regular_well_formed pb Hreg) as Hwf.
  set (S0 := stacked (imap (structural_jacobian pb) (constraints pb)) (sizes pb)
                     (inputSize (function pb))) in *.
  destruct (stacked_order _ _ _ 0 (inputSize (function pb)) Hwf) as [Hsorted Hcols].
  pose proof (stacked_below _ _ _ (inputSize (function pb)) Hwf) as Hrows.
  fold (stacked (imap (structural_jacobian pb) (constraints pb)) (sizes pb)
                (inputSize (function pb))) in Hsorted, Hcols.
  fold S0 in Hsorted, Hcols, Hrows.
  assert (Hs : StronglySorted (fun p q : Z * Z => snd p < snd q \/ snd p = snd q /\ fst p < fst q)
                              (map coordinate S0)).
  { clear - Hsorted. induction Hsorted as [| c l _ IH Hall]; simpl; constructor; [exact IH |].
    apply Forall_forall. intros q Hq. apply list_elem_of_fmap in Hq.
    destruct Hq as (d & -> & Hd).
    pose proof (proj1 (Forall_forall _ _) Hall d Hd) as H. unfold coordinate. simpl in *. lia. }
  exists (map coordinate S0).
  split; [exact Hi |]. split; [exact Hj |]. split; [| split; [exact Hs |]].
  - rewrite constraintsOutputSize_sizes. apply Forall_forall. intros p Hp.
    apply list_elem_of_fmap in Hp. destruct Hp as (c & -> & Hc).
    pose proof (proj1 (Forall_forall _ _) Hcols c Hc).
    pose proof (proj1 (Forall_forall _ _) Hrows c Hc).
    unfold coordinate. simpl in *. lia.
  - clear - Hs. induction Hs as [| p l _ IH Hall]; constructor; [| exact IH].
    intros Hin. pose proof (proj1 (Forall_forall _ _) Hall p Hin) as H. simpl in H. lia.
Qed.

Lemma structure_column_major_witness :
  exists coords : list (Z * Z),
    [0; 1; 0; 1; 0] = map fst coords ++ replicate (Z.to_nat 5 - length coords) 0 /\
    [0; 0; 1; 1; 0] = map snd coords ++ replicate (Z.to_nat 5 - length coords) 0 /\
    Forall (fun p => 0 <= fst p < Z.of_nat (constraintsOutputSize SparseExamples.pb_two) /\
                     0 <= snd p < Z.of_nat (inputSize (function SparseExamples.pb_two)))
           coords /\
    StronglySorted (fun p q => snd p < snd q \/ snd p = snd q /\ fst p < fst q) coords /\
    NoDup coords.
Proof.
  refine (structure_column_major SparseExamples.pb_two SparseExamples.fresh
            (match eval_jac_g ColMajor SparseExamples.pb_two SparseExamples.fresh 2 [] true 2 5
                              [9; 9; 9; 9; 9] [9; 9; 9; 9; 9] None with
             | Done r => snd r
             | _ => SparseExamples.fresh
             end)
            [] true 5 [9; 9; 9; 9; 9] [9; 9; 9; 9; 9] [0; 1; 0; 1; 0] [0; 0; 1; 1; 0]
            regular_pb_two eq_refl eq_refl eq_refl eq_refl eq_refl).
Defined.

(** ** The count of non-zeros *)

Lemma count_nonZeros_log cs x id nnz ev :
  snd (count_nonZeros cs x id nnz ev)
  = ev ++ imap (fun i _ => EvalJacobian (id + i) x) cs.
Proof.
  revert id nnz ev. induction cs as [| c cs IH]; intros id nnz ev; simpl.
  - rewrite app_nil_r. reflexivity.
  - rewrite IH, <- app_assoc. simpl. rewrite Nat.add_0_r. f_equal. f_equal.
    apply imap_ext. intros i c' _. simpl. f_equal. lia.
Qed.

(** X8.  For sizes and a count that fit an [Index], [get_nlp_info] reports the
    number of variables, the sum of the constraints' output sizes, and as
    number of non-zeros the sum over the constraints of the entries their
    Jacobians store at one point: the starting point when the problem has
    one, the origin otherwise.  It evaluates every constraint's Jacobian once
    there and keeps none of them. *)
Theorem get_nlp_info_counts (pb : problem) (t : Tnlp) :
  let n := inputSize (function pb) in
  let x := match startingPoint pb with
           | Some start => start
           | None => replicate n 0%float
           end in
  let nnz := sum_list (map (fun c => nonZeros (jacobian (snd c) x)) (constraints pb)) in
  Z.of_nat n < 2 ^ 31 -> Z.of_nat (constraintsOutputSize pb) < 2 ^ 31 ->
  Z.of_nat nnz < 2 ^ 31 ->
  exists t',
    get_nlp_info pb t
    = (true,
       {| info_n := Z.of_nat n; info_m := Z.of_nat (sum_list (sizes pb));
          info_nnz_jac_g := Z.of_nat nnz; info_nnz_h_lag := 0 |}, t') /\
    jacobian_ t' = jacobian_ t /\
    constraintJacobians_ t' = constraintJacobians_ t /\
    evals t' = evals t ++ imap (fun id _ => EvalJacobian id x) (constraints pb).
Proof.
  intros n x nnz Hn Hm _. unfold get_nlp_info.
  rewrite !DenseFacts.to_Index_small by lia. rewrite Nat2Z.id. fold n. fold x.
  pose proof (count_nonZeros_spec (constraints pb) x 0 0 (evals t)) as Hc.
  pose proof (count_nonZeros_log (constraints pb) x 0 0 (evals t)) as Hl.
  destruct (count_nonZeros _ _ _ _ _) as [z ev]. simpl in Hc, Hl. subst z ev.
  rewrite constraintsOutputSize_sizes.
  eexists. split; [reflexivity |]. simpl. repeat split.
Qed.

Lemma get_nlp_info_counts_witness :
  exists t',
    get_nlp_info (SparseExamples.pb_interval (0%float, 4%float)) SparseExamples.fresh
    = (true, {| info_n := 1; info_m := 1; info_nnz_jac_g := 0; info_nnz_h_lag := 0 |}, t') /\
    jacobian_ t' = None /\
    constraintJacobians_ t' = [] /\
    evals t' = [EvalJacobian 0 [0%float]].
Proof.
  apply (get_nlp_info_counts (SparseExamples.pb_interval (0%float, 4%float))
                             SparseExamples.fresh); reflexivity.
Defined.

(** ** The copy of the values, in either storage order *)

Lemma copies_nil : copies (fun _ idx values => Done (idx, values)) [].
Proof.
  intros nele idx pre rest Hidx Hlen. simpl. split.
  - intros _. rewrite Nat.add_0_r, app_nil_r, drop_0. reflexivity.
  - lia.
Qed.

Lemma copies_seq f g (V W : list Number) :
  copies f V -> copies g W ->
  copies (fun nele idx values => r ← f nele idx values; g nele (fst r) (snd r)) (V ++ W).
Proof.
  intros Hf Hg nele idx pre rest Hidx Hlen.
  destruct (Hf nele idx pre rest Hidx Hlen) as [Hf1 Hf2].
  rewrite length_app in *.
  assert (Hnext : Z.of_nat (idx + length V) <= Z.max 0 nele ->
                  f nele idx (pre ++ rest) ≫= (fun r => g nele (fst r) (snd r))
                  = g nele (idx + length V)%nat ((pre ++ V) ++ drop (length V) rest)).
  { intros H. rewrite (Hf1 H). reflexivity. }
  assert (Hfit : Z.of_nat (idx + length V) <= Z.max 0 nele -> (length V <= length rest)%nat).
  { intros H. lia. }
  split.
  - intros H. rewrite Hnext by lia.
    destruct (Hg nele (idx + length V)%nat (pre ++ V) (drop (length V) rest)) as [Hg1 _].
    + rewrite length_app. lia.
    + rewrite !length_app, length_drop in *. pose proof (Hfit ltac:(lia)). lia.
    + rewrite Hg1 by lia. rewrite drop_drop, <- !app_assoc. f_equal. f_equal. lia.
  - intros H. destruct (Z_lt_le_dec (Z.max 0 nele) (Z.of_nat (idx + length V))) as [Hover | Hin].
    + change (f nele idx (pre ++ rest) ≫= (fun r => g nele (fst r) (snd r)) = AssertionFailed).
      rewrite Hf2 by lia. reflexivity.
    + rewrite Hnext by lia.
      destruct (Hg nele (idx + length V)%nat (pre ++ V) (drop (length V) rest)) as [_ Hg2].
      * rewrite length_app. lia.
      * rewrite !length_app, length_drop in *. pose proof (Hfit ltac:(lia)). lia.
      * apply Hg2. lia.
Qed.

Lemma copies_vector (es : list (nat * Number)) :
  copies (copy_vector es) (map snd es).
Proof.
  induction es as [| e es IH]; [apply copies_nil |].
  intros nele idx pre rest Hidx Hlen. simpl. rewrite length_map.
  rewrite length_app in Hlen.
  destruct (Z.of_nat idx <? nele) eqn:Hlt; simpl.
  - apply Z.ltb_lt in Hlt. destruct rest as [| r rest]; simpl in *; [lia |].
    unfold store. destruct (decide _) as [_ | Hbad];
      [| rewrite length_app in Hbad; simpl in Hbad; lia].
    simpl.
    assert (E : <[idx := snd e]> (pre ++ r :: rest) = (pre ++ [snd e]) ++ rest).
    { rewrite Hidx, insert_app_r_alt by lia. rewrite Nat.sub_diag. simpl.
      rewrite <- app_assoc. reflexivity. }
    rewrite E.
    destruct (IH nele (S idx) (pre ++ [snd e]) rest) as [IH1 IH2].
    + rewrite length_app. simpl. lia.
    + rewrite !length_app in *. simpl in *. lia.
    + rewrite length_map in IH1, IH2. split.
      * intros H. rewrite IH1 by lia. rewrite <- !app_assoc. simpl. f_equal. f_equal. lia.
      * intros H. apply IH2. lia.
  - apply Z.ltb_ge in Hlt. split; [lia | reflexivity].
Qed.

Lemma copies_outer (Js : list jacobian_t) (k : nat) :
  Forall (fun g => (k < length (outer g))%nat) Js ->
  copies (copy_outer Js k) (flat_map (fun g => map snd (inner_vector g k)) Js).
Proof.
  induction 1 as [| g Js Hg _ IH]; [apply copies_nil |].
  destruct (lookup_lt_is_Some_2 (outer g) k Hg) as [es Hes].
  assert (Hv : inner_vector g k = es) by (unfold inner_vector; rewrite Hes; reflexivity).
  pose proof (copies_seq _ _ _ _ (copies_vector es) IH) as H.
  intros nele idx pre rest Hidx Hlen. simpl. unfold at_index. rewrite Hes, Hv. simpl.
  exact (H nele idx pre rest Hidx Hlen).
Qed.

Lemma copies_ColMajor (Js : list jacobian_t) (todo k : nat) :
  Forall (fun g => (k + todo <= length (outer g))%nat) Js ->
  copies (copy_ColMajor Js todo k)
         (flat_map (fun k' => flat_map (fun g => map snd (inner_vector g k')) Js) (seq k todo)).
Proof.
  revert k. induction todo as [| todo IH]; intros k HJs; [apply copies_nil |].
  simpl. apply copies_seq.
  - apply copies_outer. eapply Forall_impl; [exact HJs |]. simpl. intros g Hg. lia.
  - apply IH. eapply Forall_impl; [exact HJs |]. simpl. intros g Hg. lia.
Qed.

Lemma copies_RowMajor (Js : list jacobian_t) :
  copies (copy_RowMajor Js) (flat_map (fun g => map snd (concat (outer g))) Js).
Proof.
  induction Js as [| g Js IH]; [apply copies_nil |].
  simpl. apply copies_seq; [apply copies_vector | exact IH].
Qed.

(** X15.  Once the stored Jacobians are refreshed, the numeric query copies their
    values to the front of the engine's buffer, column after column across
    the constraints in a column-major build, constraint after constraint in
    a row-major one, and leaves the rest of the buffer; when more values are
    stored than [nele_jac], it stops on its assertion instead, having filled
    the [nele_jac] entries. *)
Theorem numeric_copy (so : StorageOrder_t) (pb : problem) (t : Tnlp) (n m nele_jac : Index)
    (x : list Number) (new_x : bool) (iRow jCol : list Index) (values : list Number)
    (Js' : list jacobian_t) (ev' : list event) :
  Z.of_nat (inputSize (function pb)) = n ->
  Z.of_nat (constraintsOutputSize pb) = m ->
  refill (constraints pb) (take (Z.to_nat n) x) 0 (constraintJacobians_ t) (evals t)
  = Done (Js', ev') ->
  (so = ColMajor -> Forall (fun g => (inputSize (function pb) <= length (outer g))%nat) Js') ->
  (Z.to_nat nele_jac <= length values)%nat ->
  let V := stored_values so (inputSize (function pb)) Js' in
  (Z.of_nat (length V) <= Z.max 0 nele_jac ->
   exists t',
     eval_jac_g so pb t n x new_x m nele_jac iRow jCol (Some values)
     = Done (true, Values (V ++ drop (length V) values), t') /\
     constraintJacobians_ t' = Js' /\ evals t' = ev') /\
  (Z.max 0 nele_jac < Z.of_nat (length V) ->
   eval_jac_g so pb t n x new_x m nele_jac iRow jCol (Some values) = AssertionFailed).
Proof.
  intros <- <- Er Hcols Hlen V.
  assert (Hc : copies (fun nele idx values =>
                         match so with
                         | ColMajor => copy_ColMajor Js' (inputSize (function pb)) 0 nele idx values
                         | RowMajor => copy_RowMajor Js' nele idx values
                         end) V).
  { subst V. destruct so; simpl.
    - apply copies_ColMajor. apply Hcols. reflexivity.
    - apply copies_RowMajor. }
  destruct (Hc nele_jac 0%nat [] values eq_refl Hlen) as [H1 H2]. simpl in H1, H2.
  unfold eval_jac_g. rewrite !Z.eqb_refl. simpl. rewrite Er. simpl. split.
  - intros H. destruct so; rewrite (H1 H); simpl; eexists; repeat split.
  - intros H. destruct so; rewrite H2 by lia; reflexivity.
Qed.

Lemma numeric_copy_witness :
  (exists t',
     eval_jac_g ColMajor SparseExamples.pb_two SparseExamples.structured 2
                [1%float; 1%float] true 2 4 [] []
                (Some [0%float; 0%float; 0%float; 0%float; 9%float])
     = Done (true, Values [1%float; 2%float; 1%float; 2%float; 9%float], t') /\
     length (constraintJacobians_ t') = 2%nat) /\
  eval_jac_g ColMajor SparseExamples.pb_two SparseExamples.structured 2
             [1%float; 1%float] true 2 3 [] []
             (Some [0%float; 0%float; 0%float; 0%float; 9%float])
  = AssertionFailed.
Proof.
  split.
  - destruct (proj1 (numeric_copy ColMajor SparseExamples.pb_two SparseExamples.structured
                       2 2 4 [1%float; 1%float] true [] []
                       [0%float; 0%float; 0%float; 0%float; 9%float] _ _
                       eq_refl eq_refl eq_refl
                       ltac:(intros _; repeat constructor) ltac:(simpl; lia))
                    ltac:(simpl; lia)) as (t' & E & HJ & _).
    exists t'. split; [exact E | rewrite HJ; reflexivity].
  - apply (proj2 (numeric_copy ColMajor SparseExamples.pb_two SparseExamples.structured
                    2 2 3 [1%float; 1%float] true [] []
                    [0%float; 0%float; 0%float; 0%float; 9%float] _ _
                    eq_refl eq_refl eq_refl
                    ltac:(intros _; repeat constructor) ltac:(simpl; lia))).
    simpl. lia.
Defined.

(** ** The row-major order *)

(** The triplets of row [k] among those of one Jacobian. *)
Lemma filter_row_seq (off : nat) (M : jacobian_t) (k a n : nat) :
  filter (fun t => t_outer RowMajor t = k)
         (flat_map (fun k' =>
                      map (fun e => {| t_row := off + it_row RowMajor k' e;
                                       t_col := it_col RowMajor k' e;
                                       t_value := snd e |})
                          (inner_vector M k'))
                   (seq a n))
  = if decide (off + a <= k < off + a + n)%nat
    then map (fun e => {| t_row := k; t_col := fst e; t_value := snd e |})
             (inner_vector M (k - off))
    else [].
Proof.
  revert a. induction n as [| n IH]; intros a; simpl.
  - destruct (decide _); [lia | reflexivity].
  - rewrite filter_app, IH.
    assert (Hhere : forall l : list entry,
               filter (fun t => t_outer RowMajor t = k)
                      (map (fun e => {| t_row := off + a; t_col := fst e;
                                        t_value := snd e |}) l)
               = if decide (off + a = k)%nat
                 then map (fun e => {| t_row := off + a; t_col := fst e;
                                       t_value := snd e |}) l
                 else []).
    { intros l. destruct (decide (off + a = k)%nat) as [Hak | Hak].
      - induction l as [| e l IHl]; [reflexivity |].
        rewrite map_cons, filter_cons_True by exact Hak. f_equal. exact IHl.
      - induction l as [| e l IHl]; [reflexivity |].
        rewrite map_cons, filter_cons_False by exact Hak. exact IHl. }
    rewrite Hhere.
    destruct (decide (off + a = k)%nat); destruct (decide (off + S a <= k < off + S a + n)%nat);
      destruct (decide (off + a <= k < off + a + S n)%nat); try lia; subst;
      rewrite ?app_nil_r; try reflexivity.
    replace (off + a - off)%nat with a by lia. reflexivity.
Qed.

Lemma filter_row (off : nat) (M : jacobian_t) (k : nat) :
  filter (fun t => t_outer RowMajor t = k) (triplets_of RowMajor off M)
  = if decide (off <= k < off + length (outer M))%nat
    then map (fun e => {| t_row := k; t_col := fst e; t_value := snd e |})
             (inner_vector M (k - off))
    else [].
Proof.
  unfold triplets_of, outerSize. rewrite filter_row_seq.
  destruct (decide _); destruct (decide _); try lia; reflexivity.
Qed.

Lemma map_pair_eta {A B} (l : list (A * B)) : map (fun e => (fst e, snd e)) l = l.
Proof. induction l as [| [a b] l IH]; simpl; [reflexivity | rewrite IH; reflexivity]. Qed.

(** The entries of row [k] of the whole Jacobian before assembly are those
    of the row of that rank among the rows of the stored Jacobians. *)
Lemma filter_all_rows (Js : list jacobian_t) (ss : list nat) (off k : nat) :
  Forall2 (fun g s => length (outer g) = s) Js ss ->
  map (fun t => (t_inner RowMajor t, t_value t))
      (filter (fun t => t_outer RowMajor t = k) (all_triplets RowMajor Js ss off))
  = if decide (off <= k)%nat
    then default [] (concat (map outer Js) !! (k - off)%nat)
    else [].
Proof.
  intros H. revert off. induction H as [| g s Js ss Hg _ IH]; intros off; simpl.
  - destruct (decide _); reflexivity.
  - rewrite filter_app, map_app, filter_row, IH, Hg.
    destruct (decide (off <= k < off + s)%nat) as [Hin | Hout].
    + destruct (decide (off + s <= k)%nat); [lia |].
      destruct (decide (off <= k)%nat); [| lia].
      rewrite app_nil_r, map_map. simpl. rewrite map_pair_eta.
      rewrite lookup_app_l by lia. reflexivity.
    + destruct (decide (off + s <= k)%nat) as [Hk |].
      * destruct (decide (off <= k)%nat); [| lia]. simpl.
        rewrite lookup_app_r by lia. rewrite Hg.
        replace (k - off - s)%nat with (k - (off + s))%nat by lia. reflexivity.
      * destruct (decide (off <= k)%nat); [lia |]. reflexivity.
Qed.

Lemma flat_map_imap {A B} (h : nat -> A -> B) (l : list (list A)) :
  flat_map (fun k => map (h k) (default [] (l !! k))) (seq 0 (length l))
  = concat (imap (fun k v => map (h k) v) l).
Proof.
  induction l as [| v l IH] using rev_ind; [reflexivity |].
  rewrite length_app. simpl length. rewrite Nat.add_1_r, seq_S, flat_map_app, imap_app,
    concat_app.
  f_equal.
  - rewrite <- IH. apply flat_map_seq_ext. intros k Hk. rewrite lookup_app_l by lia.
    reflexivity.
  - simpl. rewrite list_lookup_middle by reflexivity. rewrite Nat.add_0_r. reflexivity.
Qed.

Lemma map_concat_imap {A B C} (F : B -> C) (G : nat -> A -> B) (l : list (list A)) :
  map F (concat (imap (fun k v => map (G k) v) l))
  = concat (imap (fun k v => map (fun a => F (G k a)) v) l).
Proof.
  revert G. induction l as [| v l IH]; intros G; [reflexivity |].
  rewrite !imap_cons. simpl. rewrite map_app, map_map. f_equal.
  exact (IH (fun k => G (S k))).
Qed.

Lemma rows_sorted (n : nat) (Js : list jacobian_t) (ss : list nat) :
  Forall2 (fun g s => well_formed_rows s n g) Js ss ->
  Forall2 (fun g s => length (outer g) = s) Js ss /\
  Forall (fun v : list (nat * Number) => StronglySorted lt (map fst v)) (concat (map outer Js)).
Proof.
  induction 1 as [| g s Js ss (_ & _ & Hs & Hall) _ [IH1 IH2]]; simpl.
  - split; constructor.
  - split; [constructor; assumption |].
    apply Forall_app. split; [| exact IH2].
    eapply Forall_impl; [exact Hall |]. simpl. intros v Hv. apply Hv.
Qed.

Lemma length_rows (Js : list jacobian_t) (ss : list nat) :
  Forall2 (fun g s => length (outer g) = s) Js ss ->
  length (concat (map outer Js)) = sum_list ss.
Proof.
  induction 1 as [| g s Js ss Hg _ IH]; simpl; [reflexivity |].
  rewrite length_app, IH, Hg. reflexivity.
Qed.

Lemma stacked_rows_coordinates (Js : list jacobian_t) (ss : list nat) (off : nat) :
  Forall2 (fun g s => length (outer g) = s) Js ss ->
  map coordinate (stacked_rows Js ss off)
  = concat (imap (fun k v => map (fun e : nat * Number =>
                                    (Z.of_nat (off + k), Z.of_nat (fst e))) v)
                 (concat (map outer Js))).
Proof.
  intros H. revert off. induction H as [| g s Js ss Hg _ IH]; intros off; simpl.
  - reflexivity.
  - rewrite map_app, imap_app, concat_app, IH. f_equal.
    + apply (map_concat_imap coordinate).
    + f_equal. apply imap_ext. intros k v _. simpl. apply map_ext. intros e.
      rewrite Hg. f_equal. lia.
Qed.

(** The structural query of a row-major build writes the coordinates of the
    stacked entries, in the order of the row-major copy. *)
Lemma emitted_stacked_rows (n c : nat) (Js : list jacobian_t) (ss : list nat) :
  Forall2 (fun g s => well_formed_rows s n g) Js ss ->
  emitted RowMajor (setFromTriplets RowMajor (sum_list ss) c (all_triplets RowMajor Js ss 0))
  = map coordinate (stacked_rows Js ss 0).
Proof.
  intros Hwf. destruct (rows_sorted n Js ss Hwf) as [Hlen Hsorted].
  rewrite (stacked_rows_coordinates Js ss 0 Hlen).
  rewrite <- (flat_map_imap (fun k (e : nat * Number) => (Z.of_nat (0 + k), Z.of_nat (fst e)))).
  rewrite (length_rows Js ss Hlen).
  unfold emitted, outerSize, setFromTriplets. simpl.
  rewrite length_map, length_seq. apply flat_map_seq_ext. intros k Hk.
  unfold inner_vector. simpl. rewrite list_lookup_fmap, lookup_seq_lt by lia. simpl.
  pose proof (filter_all_rows Js ss 0 k Hlen) as Hf. cbn [t_inner t_outer] in Hf.
  rewrite Hf.
  destruct (decide (0 <= k)%nat); [| lia]. rewrite Nat.sub_0_r.
  rewrite assemble_sorted; [reflexivity |].
  destruct (concat (map outer Js) !! k) as [v |] eqn:Ev; simpl; [| constructor].
  exact (proj1 (Forall_lookup _ _) Hsorted k v Ev).
Qed.

Lemma stacked_rows_values (Js : list jacobian_t) (ss : list nat) (off : nat) :
  length Js = length ss ->
  map snd (stacked_rows Js ss off) = stored_values RowMajor 0 Js.
Proof.
  unfold stored_values.
  revert ss off. induction Js as [| g Js IH]; intros [| s ss] off; simpl; try discriminate;
    try reflexivity.
  intros [= Hlen]. rewrite map_app, IH by exact Hlen. f_equal.
  rewrite (map_concat_imap snd). simpl.
  change (fun (_ : nat) (v : list (nat * Number)) => map (fun a => snd a) v)
    with (@const (list (nat * Number) -> list Number) nat (map snd)).
  rewrite imap_const. symmetry. apply concat_map.
Qed.

(** The coordinates of the stacked entries depend on the positions only. *)
Lemma stacked_rows_layout (Js Js' : list jacobian_t) (ss : list nat) (off : nat) :
  Forall2 (fun g g' => layout g = layout g') Js Js' ->
  map coordinate (stacked_rows Js ss off) = map coordinate (stacked_rows Js' ss off).
Proof.
  intros H.
  assert (Hfst : map fst (stacked_rows Js ss off) = map fst (stacked_rows Js' ss off)).
  { revert ss off. induction H as [| g g' Js Js' Hg _ IH]; intros [| s ss] off; simpl;
      try reflexivity.
    rewrite !map_app, IH. f_equal.
    assert (Hblock : forall g0 : jacobian_t,
               map fst (concat (imap (fun k v =>
                                        map (fun e : nat * Number => (off + k, fst e, snd e)%nat) v)
                                     (outer g0)))
               = concat (imap (fun k v => map (fun i : nat => (off + k, i)%nat) v)
                              (map (map fst) (outer g0)))).
    { intros g0. rewrite (map_concat_imap fst), imap_fmap. f_equal. apply imap_ext.
      intros k v _. simpl. rewrite map_map. reflexivity. }
    rewrite !Hblock. unfold layout in Hg. injection Hg as _ _ ->. reflexivity. }
  change coordinate with (fun c : nat * nat * Number =>
                            (Z.of_nat (fst (fst c)), Z.of_nat (snd (fst c)))).
  rewrite <- !(map_map fst (fun p : nat * nat => (Z.of_nat (fst p), Z.of_nat (snd p)))).
  rewrite Hfst. reflexivity.
Qed.

Section FrozenRows.
Variable pb : problem.
Hypothesis Hregular : regular_rows pb.

Lemma regular_rows_well_formed :
  Forall2 (fun g s => well_formed_rows s (inputSize (function pb)) g)
          (imap (structural_jacobian pb) (constraints pb)) (sizes pb).
Proof.
  apply Forall2_same_length_lookup. split.
  - unfold sizes. rewrite length_imap, length_map. reflexivity.
  - intros i g s Hg Hs. unfold sizes in *.
    rewrite list_lookup_imap in Hg. rewrite list_lookup_fmap in Hs.
    destruct (constraints pb !! i) as [c |] eqn:Hc; cbn in *; [| discriminate].
    simplify_eq. apply (proj1 (Hregular i c Hc)).
Qed.

Lemma frozen_refill_rows (Js Js' : list jacobian_t) x ev ev' :
  frozen pb Js -> refill (constraints pb) x 0 Js ev = Done (Js', ev') -> frozen pb Js'.
Proof.
  intros HJs E. unfold frozen in *.
  pose proof (Forall2_length _ _ _ HJs) as Hlen.
  rewrite length_imap in Hlen.
  destruct (refill_spec (constraints pb) x 0 Js ev ltac:(simpl; lia))
    as (Js2 & ev2 & E2 & Hl & _ & Hat).
  rewrite E in E2. injection E2 as <- <-.
  apply Forall2_same_length_lookup. split.
  - rewrite Hl. apply (Forall2_length _ _ _ HJs).
  - intros i g' g0 Hg' Hg0.
    assert (Hi : (i < length Js)%nat) by (rewrite <- Hl; eapply lookup_lt_Some; exact Hg').
    destruct (lookup_lt_is_Some_2 Js i Hi) as [g Hg].
    destruct (lookup_lt_is_Some_2 (constraints pb) i ltac:(lia)) as [c Hc].
    pose proof (Hat i c g Hc Hg) as Hnew. simpl in Hnew. rewrite Hg' in Hnew.
    injection Hnew as ->.
    pose proof (Forall2_lookup_lr _ _ _ _ _ _ HJs Hg Hg0) as Hlay.
    rewrite list_lookup_imap, Hc in Hg0. cbn in Hg0.
    injection Hg0 as <-.
    apply (proj2 (Hregular i c Hc)). rewrite layout_scale. exact Hlay.
Qed.

Lemma frozen_after_rows so t1 t :
  frozen pb (constraintJacobians_ t1) -> after_numeric so pb t1 t ->
  frozen pb (constraintJacobians_ t).
Proof.
  intros H1. induction 1 as [| t' t'' n' x new_x m' nele iRow jCol values out _ IH E];
    [exact H1 |].
  destruct (numeric_refills pb _ _ _ _ _ _ _ _ _ _ _ _ _ E) as [ev' Hr].
  exact (frozen_refill_rows _ _ _ _ _ IH Hr).
Qed.

(** X16.  In a row-major build too, the values come in the order of the
    coordinates.  Let the first structural query of a regular problem, asked
    of an adapter that has stored nothing yet with buffers of [nele_jac]
    entries, return: it has written k coordinates, row after row of the whole
    Jacobian and by increasing column within a row, padded with zeros.  Then
    every numeric query that follows returns having written exactly k values
    at the front of the engine's buffer, and the i-th value is the stored
    entry whose coordinate in the whole Jacobian is the i-th coordinate
    written by the structural query. *)
Theorem fill_order_rows (t0 t1 : Tnlp) (x0 : list Number) (new_x0 : bool)
    (nele_jac : Index) (iRow jCol iRow' jCol' : list Index) :
  jacobian_ t0 = None -> constraintJacobians_ t0 = [] ->
  0 <= nele_jac ->
  length iRow = Z.to_nat nele_jac -> length jCol = Z.to_nat nele_jac ->
  eval_jac_g RowMajor pb t0 (Z.of_nat (inputSize (function pb))) x0 new_x0
             (Z.of_nat (constraintsOutputSize pb)) nele_jac iRow jCol None
  = Done (true, Structure iRow' jCol', t1) ->
  exists coords : list (Index * Index),
    (length coords <= Z.to_nat nele_jac)%nat /\
    iRow' = map fst coords ++ replicate (Z.to_nat nele_jac - length coords) 0 /\
    jCol' = map snd coords ++ replicate (Z.to_nat nele_jac - length coords) 0 /\
    forall t, after_numeric RowMajor pb t1 t ->
    forall x new_x iR jC values, length values = Z.to_nat nele_jac ->
    exists t',
      let written := stacked_rows (constraintJacobians_ t') (sizes pb) 0 in
      eval_jac_g RowMajor pb t (Z.of_nat (inputSize (function pb))) x new_x
                 (Z.of_nat (constraintsOutputSize pb)) nele_jac iR jC (Some values)
      = Done (true, Values (map snd written ++ drop (length coords) values), t') /\
      map coordinate written = coords.
Proof.
  intros Hnone Hempty Hnele HiRow HjCol.
  set (Js0 := imap (structural_jacobian pb) (constraints pb)).
  set (coords := map coordinate (stacked_rows Js0 (sizes pb) 0)).
  unfold eval_jac_g at 1.
  rewrite !Z.eqb_refl, Hnone, Hempty. simpl. unfold memset0.
  destruct (decide _) as [_ |]; [| lia]. destruct (decide _) as [_ |]; [| lia]. simpl.
  destruct (collect pb RowMajor _ _ 0 0 [] [] _) as [r | |] eqn:Ec; simpl; try discriminate.
  apply collect_spec in Ec. simpl in Ec. destruct r as [[Js T] ev]. simpl in Ec.
  destruct Ec as (-> & -> & _).
  change (imap (fun i c => structural_jacobian pb i c) (constraints pb)) with Js0.
  change (map (fun c => outputSize (snd c)) (constraints pb)) with (sizes pb).
  assert (Hem : emitted RowMajor
                  (setFromTriplets RowMajor (constraintsOutputSize pb)
                                   (inputSize (function pb))
                                   (all_triplets RowMajor Js0 (sizes pb) 0))
                = coords).
  { rewrite (constraintsOutputSize_sizes pb).
    apply (emitted_stacked_rows _ _ Js0 (sizes pb) regular_rows_well_formed). }
  rewrite !Hem. unfold emit. rewrite !length_map.
  assert (Hz : forall p : list Index, length p = Z.to_nat nele_jac ->
               length (copy_into (replicate (Z.to_nat nele_jac) 0) p) = Z.to_nat nele_jac
               /\ forall l : list Index, (length l <= Z.to_nat nele_jac)%nat ->
                  copy_into l (copy_into (replicate (Z.to_nat nele_jac) 0) p)
                  = l ++ replicate (Z.to_nat nele_jac - length l) 0).
  { intros p Hp. unfold copy_into. rewrite length_replicate, <- Hp, drop_all, app_nil_r.
    rewrite length_replicate. split; [reflexivity |]. intros l Hl.
    rewrite drop_replicate. reflexivity. }
  destruct (Hz iRow HiRow) as [Hli Hci]. destruct (Hz jCol HjCol) as [Hlj Hcj].
  rewrite Hli, Hlj.
  destruct (decide _) as [Hk |]; simpl; [| discriminate].
  intros [= <- <- <-].
  exists coords.
  split; [exact Hk |].
  rewrite Hci, Hcj by (rewrite !length_map; exact Hk). rewrite ?length_map.
  split; [reflexivity |]. split; [reflexivity |].
  intros t Hafter x new_x iR jC values Hvalues.
  assert (Hfrozen : frozen pb (constraintJacobians_ t)).
  { eapply frozen_after_rows; [| exact Hafter].
    simpl. unfold frozen. fold Js0.
    apply Forall2_same_length_lookup. split; [reflexivity |].
    intros i g g' Hg Hg'. rewrite Hg in Hg'. injection Hg' as ->. reflexivity. }
  pose proof (Forall2_length _ _ _ Hfrozen) as Hlen. rewrite length_imap in Hlen.
  destruct (refill_spec (constraints pb)
                        (take (Z.to_nat (Z.of_nat (inputSize (function pb)))) x) 0
                        (constraintJacobians_ t) (evals t) ltac:(simpl; exact Hlen))
    as (Js' & ev' & E & Hl' & _).
  pose proof (frozen_refill_rows _ _ _ _ _ Hfrozen E) as HJs'.
  pose proof (stacked_rows_layout Js' Js0 (sizes pb) 0 HJs') as Hcoords.
  fold coords in Hcoords.
  assert (Hss : length Js' = length (sizes pb)).
  { unfold sizes. rewrite length_map. lia. }
  pose proof (stacked_rows_values Js' (sizes pb) 0 Hss) as Hvals.
  assert (Hk' : length (stored_values RowMajor 0 Js') = length coords).
  { rewrite <- Hvals, <- Hcoords, !length_map. reflexivity. }
  unfold eval_jac_g. rewrite !Z.eqb_refl. simpl. rewrite E. simpl.
  destruct (copies_RowMajor Js' nele_jac 0%nat [] values eq_refl) as [Hcopy _].
  { simpl. lia. }
  simpl in Hcopy. unfold stored_values in Hk', Hvals. rewrite Hk' in Hcopy.
  rewrite Hcopy by lia. simpl.
  lazymatch goal with
  | |- context [Done (true, Values _, ?T)] => exists T
  end.
  simpl. rewrite Hvals. split; [reflexivity | exact Hcoords].
Qed.

End FrozenRows.

Lemma regular_pb_two_rows : regular_rows SparseExamples.pb_two_rows.
Proof.
  intros id c Hc.
  destruct id as [| [| id]]; simpl in Hc; simplify_eq; split.
  - repeat split; repeat constructor.
  - intros jac x <-. unfold layout. simpl. f_equal. rewrite map_map. apply map_ext.
    intros v. rewrite map_map. reflexivity.
  - repeat split; repeat constructor.
  - intros jac x <-. unfold layout. simpl. f_equal. rewrite map_map. apply map_ext.
    intros v. rewrite map_map. reflexivity.
Qed.

Lemma fill_order_rows_witness :
  exists coords : list (Z * Z),
    (length coords <= Z.to_nat 4)%nat /\
    [0; 0; 1; 1] = map fst coords ++ replicate (Z.to_nat 4 - length coords) 0 /\
    [0; 1; 0; 1] = map snd coords ++ replicate (Z.to_nat 4 - length coords) 0 /\
    forall t,
      after_numeric RowMajor SparseExamples.pb_two_rows SparseExamples.structured_rows t ->
    forall x new_x iR jC values, length values = Z.to_nat 4 ->
    exists t',
      let written :=
        stacked_rows (constraintJacobians_ t') (sizes SparseExamples.pb_two_rows) 0 in
      eval_jac_g RowMajor SparseExamples.pb_two_rows t
                 (Z.of_nat (inputSize (function SparseExamples.pb_two_rows))) x new_x
                 (Z.of_nat (constraintsOutputSize SparseExamples.pb_two_rows)) 4 iR jC
                 (Some values)
      = Done (true, Values (map snd written ++ drop (length coords) values), t') /\
      map coordinate written = coords.
Proof.
  refine (fill_order_rows SparseExamples.pb_two_rows regular_pb_two_rows SparseExamples.fresh
            SparseExamples.structured_rows [] true 4 [9; 9; 9; 9] [9; 9; 9; 9]
            [0; 0; 1; 1] [0; 1; 0; 1] eq_refl eq_refl _ eq_refl eq_refl eq_refl).
  lia.
Defined.

End SparseMore.
